(** * The service worker [static/sw.js]: cache-then-network request gate.

    The script registers two listeners on the worker's global scope:

    - ['install']: [event.waitUntil(caches.open('expense-cache-v1')
        .then((cache) => cache.addAll(['/', '/static/style.css'])))]
    - ['fetch']: [event.respondWith(caches.match(event.request)
        .then((resp) => resp || fetch(event.request)))]

    Both listeners are promise chains over the browser's cache storage and
    network.  The embedding has three layers:

    - [Host]: the state the browser keeps for the worker (the origin's cache
      storage, the network, a log of the network calls made) and what each
      host call used by the script does to it;
    - [Js]: promises as trees of pending host calls, with [then_], the
      [||] of the fetch listener, a run-to-completion semantics and a
      one-call-at-a-time semantics for interleaved handlers;
    - [Sw]: the two listeners, transcribed from the script. *)

From Stdlib Require Import List String Bool Arith Lia Permutation.
Import ListNotations.
Open Scope string_scope.
Open Scope list_scope.
Open Scope nat_scope.

(** ** Host state and host calls

    The script is all calls into the worker's host: [caches.open],
    [cache.addAll], [caches.match] and [fetch].  They are modelled here
    after the [Cache], [CacheStorage] and [fetch] interfaces the browser
    gives a service worker, as functions on the state the browser keeps. *)

Module Host.

(** A request as far as the cache and the network tell requests apart:
    method and URL.  Request headers, and with them [Vary] matching, are
    outside the model. *)
Record Request : Type := mkRequest { method : string; url : string }.

Record Response : Type := mkResponse {
  status : nat;
  headers : list (string * string);
  body : string
}.

(** The reason a promise rejects with: an error name and its message. *)
Record JsError : Type := mkError { err_name : string; err_message : string }.

(** The two ways a promise settles. *)
Inductive Settled (A : Type) : Type :=
| Fulfilled (value : A)
| Rejected (reason : JsError).
Arguments Fulfilled {A} value.
Arguments Rejected {A} reason.

(** A [Cache]: request/response entries in insertion order. *)
Definition Cache : Type := list (Request * Response).

(** The origin's [CacheStorage]: named caches in creation order. *)
Definition CacheStorage : Type := list (string * Cache).

(** A [Cache] object handed out by [caches.open]: it designates the cache
    of that name in the storage. *)
Record CacheHandle : Type := mkHandle { handle_name : string }.

Record World : Type := mkWorld {
  caches : CacheStorage;
  network : Request -> Settled Response;
  netlog : list Request
}.

Definition set_caches (cs : CacheStorage) (w : World) : World :=
  mkWorld cs (network w) (netlog w).

Definition log_requests (rs : list Request) (w : World) : World :=
  mkWorld (caches w) (network w) (netlog w ++ rs).

(** [new Request(url)]: a GET request. *)
Definition get_request (u : string) : Request := mkRequest "GET" u.

(** Whether the query request matches a cached request: only GET queries
    match, and they match on the URL. *)
Definition request_matches (query cached : Request) : bool :=
  String.eqb (method query) "GET" && String.eqb (url query) (url cached).

(** [cache.match(request)]: the response of the first matching entry. *)
Definition cache_match (req : Request) (c : Cache) : option Response :=
  match find (fun e => request_matches req (fst e)) c with
  | Some e => Some (snd e)
  | None => None
  end.

(** [caches.match(request)]: every cache of the storage is asked, in
    creation order; the first match wins. *)
Fixpoint storage_match (req : Request) (cs : CacheStorage) : option Response :=
  match cs with
  | [] => None
  | (_, c) :: rest =>
      match cache_match req c with
      | Some r => Some r
      | None => storage_match req rest
      end
  end.

(** The cache of a given name, if the storage has one. *)
Fixpoint lookup_cache (name : string) (cs : CacheStorage) : option Cache :=
  match cs with
  | [] => None
  | (n, c) :: rest => if String.eqb n name then Some c else lookup_cache name rest
  end.

Fixpoint update_cache (name : string) (f : Cache -> Cache) (cs : CacheStorage)
  : CacheStorage :=
  match cs with
  | [] => []
  | (n, c) :: rest =>
      if String.eqb n name then (n, f c) :: rest
      else (n, c) :: update_cache name f rest
  end.

(** [caches.open(name)] on the storage: the cache is created, empty and
    last in creation order, when the storage has none of that name. *)
Definition open_storage (name : string) (cs : CacheStorage) : CacheStorage :=
  match lookup_cache name cs with
  | Some _ => cs
  | None => cs ++ [(name, [])]
  end.

(** [cache.put(request, response)]: entries matching the request go, the
    new entry is appended. *)
Definition cache_put (e : Request * Response) (c : Cache) : Cache :=
  filter (fun old => negb (request_matches (fst e) (fst old))) c ++ [e].

Definition cache_put_all (es : list (Request * Response)) (c : Cache) : Cache :=
  fold_left (fun acc e => cache_put e acc) es c.

(** A status [addAll] accepts: in the 200-299 range and not 206. *)
Definition ok_status (s : nat) : bool :=
  (200 <=? s) && (s <=? 299) && negb (s =? 206).

Definition storable (s : Settled Response) : bool :=
  match s with
  | Fulfilled r => ok_status (status r)
  | Rejected _ => false
  end.

(** The responses of a batch of fetches when every one of them is
    storable, [None] when one is not. *)
Fixpoint collect (outcomes : list (Request * Settled Response))
  : option (list (Request * Response)) :=
  match outcomes with
  | [] => Some []
  | (rq, Fulfilled r) :: rest =>
      if ok_status (status r) then
        match collect rest with
        | Some es => Some ((rq, r) :: es)
        | None => None
        end
      else None
  | (_, Rejected _) :: _ => None
  end.

Fixpoint has_duplicate (us : list string) : bool :=
  match us with
  | [] => false
  | u :: rest => existsb (String.eqb u) rest || has_duplicate rest
  end.

Definition type_error : JsError := mkError "TypeError" "Failed to fetch".
Definition invalid_state : JsError :=
  mkError "InvalidStateError" "duplicate requests".

(** The host calls the script makes; the index is the type of the value
    the returned promise fulfils with. *)
Inductive HostOp : Type -> Type :=
| CachesOpen (name : string) : HostOp CacheHandle
| CacheAddAll (cache : CacheHandle) (urls : list string) : HostOp unit
| CachesMatch (req : Request) : HostOp (option Response)
| Fetch (req : Request) : HostOp Response.

(** [cache.addAll(urls)]: one GET fetch per URL is issued; when every
    response is storable all of them are put in one batch, otherwise the
    promise rejects with a [TypeError] and nothing is stored.  A handle
    whose cache has left the storage stores nowhere. *)
Definition addAll (cache : CacheHandle) (urls : list string) (w : World)
  : Settled unit * World :=
  let reqs := map get_request urls in
  let w1 := log_requests reqs w in
  match collect (map (fun rq => (rq, network w rq)) reqs) with
  | None => (Rejected type_error, w1)
  | Some es =>
      if has_duplicate urls then (Rejected invalid_state, w1)
      else (Fulfilled tt,
            set_caches (update_cache (handle_name cache) (cache_put_all es)
                          (caches w1)) w1)
  end.

Definition perform {X : Type} (op : HostOp X) (w : World) : Settled X * World :=
  match op in HostOp T return Settled T * World with
  | CachesOpen name =>
      (Fulfilled (mkHandle name), set_caches (open_storage name (caches w)) w)
  | CacheAddAll cache urls => addAll cache urls w
  | CachesMatch req => (Fulfilled (storage_match req (caches w)), w)
  | Fetch req => (network w req, log_requests [req] w)
  end.

End Host.

(** ** Promises *)

Module Js.
Import Host.

(** A promise: settled, or waiting for a host call whose outcome decides
    how it goes on. *)
Inductive Promise (A : Type) : Type :=
| Settle (s : Settled A)
| Await {X : Type} (op : HostOp X) (k : Settled X -> Promise A).
Arguments Settle {A} s.
Arguments Await {A X} op k.

Definition resolve {A : Type} (a : A) : Promise A := Settle (Fulfilled a).

Definition host {X : Type} (op : HostOp X) : Promise X := Await op Settle.

(** [p.then(f)] with a fulfilment callback only: a rejection of [p] is the
    rejection of the result, and a promise returned by [f] is adopted. *)
Fixpoint then_ {A B : Type} (p : Promise A) (f : A -> Promise B) : Promise B :=
  match p with
  | Settle (Fulfilled a) => f a
  | Settle (Rejected e) => Settle (Rejected e)
  | Await op k => Await op (fun s => then_ (k s) f)
  end.

(** [resp || alt] where [resp] is a [Response] or [undefined]: a response
    object is truthy and is the value; on [undefined] the right operand is
    evaluated and is the value. *)
Definition or_else (resp : option Response) (alt : Promise Response)
  : Promise Response :=
  match resp with
  | Some r => resolve r
  | None => alt
  end.

(** Run a promise until it settles. *)
Fixpoint run {A : Type} (p : Promise A) (w : World) : Settled A * World :=
  match p with
  | Settle s => (s, w)
  | Await op k => let (s, w') := perform op w in run (k s) w'
  end.

(** Let the one pending host call of a promise complete. *)
Definition step {A : Type} (p : Promise A) (w : World) : Promise A * World :=
  match p with
  | Settle s => (Settle s, w)
  | Await op k => let (s, w') := perform op w in (k s, w')
  end.

(** A pool of promises in flight; [step_at i] lets the [i]-th advance. *)
Fixpoint step_at {A : Type} (i : nat) (ps : list (Promise A)) (w : World)
  {struct ps} : list (Promise A) * World :=
  match ps, i with
  | [], _ => ([], w)
  | p :: rest, O => let (p', w') := step p w in (p' :: rest, w')
  | p :: rest, S j => let (rest', w') := step_at j rest w in (p :: rest', w')
  end.

Fixpoint run_schedule {A : Type} (sched : list nat) (ps : list (Promise A))
  (w : World) : list (Promise A) * World :=
  match sched with
  | [] => (ps, w)
  | i :: rest => let (ps', w') := step_at i ps w in run_schedule rest ps' w'
  end.

(** Promises that only read the cache storage and call the network. *)
Inductive reads_only {A : Type} : Promise A -> Prop :=
| ro_settle s : reads_only (Settle s)
| ro_match req k :
    (forall s, reads_only (k s)) -> reads_only (Await (CachesMatch req) k)
| ro_fetch req k :
    (forall s, reads_only (k s)) -> reads_only (Await (Fetch req) k).

End Js.

(** ** The script *)

Module Sw.
Import Host Js.

Record ExtendableEvent : Type := mkInstallEvent { }.
Record FetchEvent : Type := mkFetchEvent { request : Request }.

(** [event.waitUntil(p)]: the install succeeds when [p] fulfils and fails
    when it rejects. *)
Definition waitUntil {A : Type} (event : ExtendableEvent) (p : Promise A)
  : Promise A := p.

(** [event.respondWith(p)]: the request is answered with what [p] settles
    to. *)
Definition respondWith (event : FetchEvent) (p : Promise Response)
  : Promise Response := p.

Definition caches_open (name : string) : Promise CacheHandle :=
  host (CachesOpen name).
Definition cache_addAll (cache : CacheHandle) (urls : list string)
  : Promise unit := host (CacheAddAll cache urls).
Definition caches_match (req : Request) : Promise (option Response) :=
  host (CachesMatch req).
Definition fetch (req : Request) : Promise Response := host (Fetch req).

Definition cache_name : string := "expense-cache-v1".
Definition preload_urls : list string := ["/"; "/static/style.css"].

(** [self.addEventListener('install', (event) => ...)] *)
Definition install_listener (event : ExtendableEvent) : Promise unit :=
  waitUntil event
    (then_ (caches_open cache_name)
       (fun cache => cache_addAll cache preload_urls)).

(** [self.addEventListener('fetch', (event) => ...)] *)
Definition fetch_listener (event : FetchEvent) : Promise Response :=
  respondWith event
    (then_ (caches_match (request event))
       (fun resp => or_else resp (fetch (request event)))).

End Sw.

(** ** Notions the statements use *)

Module Notions.
Import Host Js Sw.

(** The entries of the partition the install listener names; none when
    the storage has no such partition. *)
Definition partition (w : World) : Cache :=
  match lookup_cache cache_name (caches w) with
  | Some c => c
  | None => []
  end.

(** The URLs a cache holds an entry for. *)
Definition entry_urls (c : Cache) : list string :=
  map (fun e => url (fst e)) c.

(** Some cache of the storage holds, under a request the query matches,
    the given response. *)
Definition stored (req : Request) (resp : Response) (cs : CacheStorage) : Prop :=
  exists name c cached,
    In (name, c) cs /\ In (cached, resp) c /\ request_matches req cached = true.

(** Every preload fetch yields a response [addAll] stores. *)
Definition preload_ok (w : World) : Prop :=
  forall u, In u preload_urls -> storable (network w (get_request u)) = true.

(** Cache names are unique in a storage. *)
Definition storage_wf (cs : CacheStorage) : Prop := NoDup (map fst cs).

(** Two worlds a reader of caches and network cannot tell apart. *)
Definition same_view (w1 w2 : World) : Prop :=
  caches w1 = caches w2 /\ network w1 = network w2.

(** [n] completed host calls of one promise. *)
Fixpoint iter_step {A : Type} (n : nat) (p : Promise A) (w : World)
  : Promise A * World :=
  match n with
  | O => (p, w)
  | S m => let (p', w') := step p w in iter_step m p' w'
  end.

(** The batch [addAll] puts for the preload set: each preload request
    with the response the network gives, when all of them are storable. *)
Definition preload_batch (w : World) : option (list (Request * Response)) :=
  collect (map (fun rq => (rq, network w rq)) (map get_request preload_urls)).

(** Whether an entry is stored under one of the preload URLs. *)
Definition is_preload (e : Request * Response) : bool :=
  existsb (String.eqb (url (fst e))) preload_urls.

(** Whether an old entry stays when a batch is put: no request of the
    batch matches it. *)
Definition survives (es : list (Request * Response)) (old : Request * Response)
  : bool := negb (existsb (fun e => request_matches (fst e) (fst old)) es).

(** A later moment of a world: the same cache storage, another network
    and another log. *)
Definition later (w : World) (net : Request -> Settled Response)
  (log : list Request) : World := mkWorld (caches w) net log.

(** The network requests a host call issues. *)
Definition op_log {X : Type} (op : HostOp X) : list Request :=
  match op with
  | CachesOpen _ => []
  | CacheAddAll _ urls => map get_request urls
  | CachesMatch _ => []
  | Fetch req => [req]
  end.

(** The network requests a promise issues until it settles. *)
Fixpoint run_log {A : Type} (p : Promise A) (w : World) : list Request :=
  match p with
  | Settle _ => []
  | Await op k =>
      op_log op ++ run_log (k (fst (perform op w))) (snd (perform op w))
  end.

(** The network requests the next host call of a promise issues. *)
Definition step_log {A : Type} (p : Promise A) : list Request :=
  match p with
  | Settle _ => []
  | Await op _ => op_log op
  end.

(** The network requests the promises of a pool still have to issue, each
    promise run alone in the given world. *)
Definition pool_log {A : Type} (ps : list (Promise A)) (w : World)
  : list Request := flat_map (fun p => run_log p w) ps.

(** The network requests a fetch event costs: none on a hit, the request
    itself on a miss. *)
Definition miss_log (w : World) (event : FetchEvent) : list Request :=
  match storage_match (request event) (caches w) with
  | Some _ => []
  | None => [request event]
  end.

End Notions.

(** ** Sample worlds *)

Module Samples.
Import Host Js Sw Notions.

Definition page : Response :=
  mkResponse 200 [("content-type", "text/html")] "<html>expenses</html>".
Definition style : Response :=
  mkResponse 200 [("content-type", "text/css")] "body{margin:0}".
Definition script : Response :=
  mkResponse 200 [("content-type", "text/javascript")] "init()".
Definition not_found : Response := mkResponse 404 [] "not found".

(** A server that has the two preload targets and nothing else. *)
Definition online (rq : Request) : Settled Response :=
  if String.eqb (url rq) "/" then Fulfilled page
  else if String.eqb (url rq) "/static/style.css" then Fulfilled style
  else Fulfilled not_found.

(** No connectivity: every fetch rejects. *)
Definition offline (rq : Request) : Settled Response := Rejected type_error.

(** The style sheet is gone from the server. *)
Definition style_missing (rq : Request) : Settled Response :=
  if String.eqb (url rq) "/" then Fulfilled page else Fulfilled not_found.

Definition fresh : World := mkWorld [] online [].

(** The state a successful install leaves from [fresh]. *)
Definition installed_caches : CacheStorage :=
  [(cache_name, [(get_request "/", page);
                 (get_request "/static/style.css", style)])].

Definition installed : World := mkWorld installed_caches online [].
Definition installed_offline : World := mkWorld installed_caches offline [].

(** The partition already holds an entry the preload set does not name. *)
Definition leftover : World :=
  mkWorld [(cache_name, [(get_request "/static/app.js", script)])] online [].

(** A page script has filled a second cache of the same origin. *)
Definition two_caches : World :=
  mkWorld [(cache_name, []);
           ("page-cache", [(get_request "/static/app.js", script)])]
          offline [].

(** The same partition and network, without the second cache. *)
Definition one_cache : World := mkWorld [(cache_name, [])] offline [].

(** The server after a redeploy: other content under the same URLs. *)
Definition redeployed (rq : Request) : Settled Response :=
  Fulfilled (mkResponse 200 [] "v2").

(** Three caches: an empty one, then a page cache that holds another
    response for [/], then the partition with the preloaded page. *)
Definition shadowed : World :=
  mkWorld [("empty-cache", []);
           ("page-cache", [(get_request "/", not_found)]);
           (cache_name, [(get_request "/", page)])]
          offline [].

(** The partition with the preloaded page, and a page cache that holds a
    script. *)
Definition mixed : World :=
  mkWorld [(cache_name, [(get_request "/", page)]);
           ("page-cache", [(get_request "/static/app.js", script)])]
          offline [].

(** The partition after an install that found a script in it. *)
Definition installed_with_script : World :=
  mkWorld [(cache_name, [(get_request "/static/app.js", script);
                         (get_request "/", page);
                         (get_request "/static/style.css", style)])]
          online [].

Definition ev (u : string) : FetchEvent := mkFetchEvent (get_request u).
Definition install_ev : ExtendableEvent := mkInstallEvent.

End Samples.

(** ** The listeners on the sample worlds *)

Module Examples.
Import Host Js Sw Notions Samples.

Example install_from_fresh :
  run (install_listener install_ev) fresh =
  (Fulfilled tt,
   mkWorld installed_caches online
     [get_request "/"; get_request "/static/style.css"]).
Proof. reflexivity. Qed.

Example install_offline :
  run (install_listener install_ev) (mkWorld [] offline []) =
  (Rejected type_error,
   mkWorld [(cache_name, [])] offline
     [get_request "/"; get_request "/static/style.css"]).
Proof. reflexivity. Qed.

Example install_style_missing :
  fst (run (install_listener install_ev) (mkWorld [] style_missing []))
  = Rejected type_error.
Proof. reflexivity. Qed.

Example fetch_hit :
  run (fetch_listener (ev "/static/style.css")) installed_offline
  = (Fulfilled style, installed_offline).
Proof. reflexivity. Qed.

Example fetch_miss_online :
  run (fetch_listener (ev "/missing")) installed
  = (Fulfilled not_found, mkWorld installed_caches online [get_request "/missing"]).
Proof. reflexivity. Qed.

Example fetch_miss_offline :
  run (fetch_listener (ev "/missing")) installed_offline
  = (Rejected type_error,
     mkWorld installed_caches offline [get_request "/missing"]).
Proof. reflexivity. Qed.

Example fetch_post_is_never_a_hit :
  run (fetch_listener (mkFetchEvent (mkRequest "POST" "/"))) installed
  = (Fulfilled page, mkWorld installed_caches online [mkRequest "POST" "/"]).
Proof. reflexivity. Qed.

Example reinstall_replaces_values :
  partition
    (snd (run (install_listener install_ev)
            (mkWorld [(cache_name, [(get_request "/", not_found)])] online [])))
  = [(get_request "/", page); (get_request "/static/style.css", style)].
Proof. reflexivity. Qed.

Example interleaved_hit_and_miss :
  fst (run_schedule [1; 0; 0; 1] (map fetch_listener [ev "/"; ev "/missing"])
         installed_offline)
  = [Settle (Fulfilled page); Settle (Rejected type_error)].
Proof. reflexivity. Qed.

End Examples.

(** ** Lists, caches and storages *)

Module Facts.
Import Host Js Sw Notions.

Lemma find_app {A : Type} (p : A -> bool) (l1 l2 : list A) :
  find p (l1 ++ l2) =
  match find p l1 with Some x => Some x | None => find p l2 end.
Proof.
  induction l1 as [|x l1 IH]; simpl; [reflexivity|].
  destruct (p x); [reflexivity | exact IH].
Qed.

Lemma find_filter_keep {A : Type} (p g : A -> bool) (l : list A) :
  (forall x, p x = true -> g x = true) ->
  find p (filter g l) = find p l.
Proof.
  intros Hpg. induction l as [|x l IH]; simpl; [reflexivity|].
  destruct (p x) eqn:Hp.
  - rewrite (Hpg x Hp). simpl. rewrite Hp. reflexivity.
  - destruct (g x); simpl; [rewrite Hp|]; exact IH.
Qed.

Lemma find_filter_drop {A : Type} (p : A -> bool) (l : list A) :
  find p (filter (fun x => negb (p x)) l) = None.
Proof.
  induction l as [|x l IH]; simpl; [reflexivity|].
  destruct (p x) eqn:Hp; simpl; [|rewrite Hp]; exact IH.
Qed.

Lemma cache_match_some req c r :
  cache_match req c = Some r ->
  exists cached, In (cached, r) c /\ request_matches req cached = true.
Proof.
  unfold cache_match. destruct (find _ c) as [[cached r']|] eqn:Hf; [|discriminate].
  intros [= <-]. apply find_some in Hf. simpl in Hf. exists cached. exact Hf.
Qed.

Lemma cache_match_none req c cached r :
  cache_match req c = None -> In (cached, r) c ->
  request_matches req cached = false.
Proof.
  unfold cache_match. destruct (find _ c) eqn:Hf; [discriminate|].
  intros _ Hin. exact (find_none _ _ Hf _ Hin).
Qed.

Lemma storage_match_some req cs r :
  storage_match req cs = Some r -> stored req r cs.
Proof.
  induction cs as [|[n c] cs IH]; simpl; [discriminate|].
  destruct (cache_match req c) as [r'|] eqn:Hc.
  - intros [= <-]. destruct (cache_match_some _ _ _ Hc) as (cached & Hin & Hm).
    exists n, c, cached. simpl. auto.
  - intros H. destruct (IH H) as (n' & c' & cached & Hin & Hin' & Hm).
    exists n', c', cached. simpl. auto.
Qed.

Lemma storage_match_none req cs r :
  storage_match req cs = None -> ~ stored req r cs.
Proof.
  induction cs as [|[n c] cs IH]; simpl.
  - intros _ (n' & c' & cached & [] & _).
  - destruct (cache_match req c) eqn:Hc; [discriminate|].
    intros H (n' & c' & cached & [Heq|Hin] & Hin' & Hm).
    + injection Heq as <- <-.
      rewrite (cache_match_none _ _ _ _ Hc Hin') in Hm. discriminate.
    + apply (IH H). exists n', c', cached. auto.
Qed.

Lemma storage_match_all_none req cs :
  (forall name c, In (name, c) cs -> cache_match req c = None) ->
  storage_match req cs = None.
Proof.
  induction cs as [|[n c] cs IH]; simpl; intros H; [reflexivity|].
  rewrite (H n c (or_introl eq_refl)). apply IH.
  intros name c' Hin. apply (H name c'). now right.
Qed.

Lemma storage_match_alone name req cs :
  storage_wf cs ->
  (forall n c, In (n, c) cs -> n <> name -> cache_match req c = None) ->
  storage_match req cs =
  cache_match req (match lookup_cache name cs with Some c => c | None => [] end).
Proof.
  unfold storage_wf.
  induction cs as [|[n c] cs IH]; simpl; intros Hnd Hothers; [reflexivity|].
  inversion Hnd as [|? ? Hnotin Hnd']; subst.
  destruct (String.eqb n name) eqn:Hn.
  - apply String.eqb_eq in Hn. subst n.
    destruct (cache_match req c); [reflexivity|].
    apply storage_match_all_none. intros n' c' Hin.
    apply (Hothers n' c'); [now right|].
    intros ->. apply Hnotin. change name with (fst (name, c')). now apply in_map.
  - apply String.eqb_neq in Hn.
    rewrite (Hothers n c (or_introl eq_refl) Hn).
    apply IH; [exact Hnd'|].
    intros n' c' Hin. apply (Hothers n' c'). now right.
Qed.

Lemma lookup_cache_open name cs :
  lookup_cache name (open_storage name cs) =
  Some (match lookup_cache name cs with Some c => c | None => [] end).
Proof.
  unfold open_storage. destruct (lookup_cache name cs) eqn:Hl; [exact Hl|].
  induction cs as [|[n c] cs IH]; simpl in *.
  - now rewrite String.eqb_refl.
  - destruct (String.eqb n name); [discriminate | now apply IH].
Qed.

Lemma lookup_cache_update name f cs :
  lookup_cache name (update_cache name f cs) =
  option_map f (lookup_cache name cs).
Proof.
  induction cs as [|[n c] cs IH]; simpl; [reflexivity|].
  destruct (String.eqb n name) eqn:Hn; simpl; rewrite Hn; [reflexivity | exact IH].
Qed.

Lemma entry_urls_put e c u :
  In u (entry_urls (cache_put e c)) <-> u = url (fst e) \/ In u (entry_urls c).
Proof.
  unfold entry_urls, cache_put. rewrite map_app, in_app_iff. simpl. split.
  - intros [Hin|[<-|[]]]; [right | now left].
    apply in_map_iff in Hin. destruct Hin as (old & <- & Hin).
    apply filter_In in Hin. apply in_map_iff. exists old. tauto.
  - intros [->|Hin]; [now right; left|].
    apply in_map_iff in Hin. destruct Hin as (old & <- & Hin).
    destruct (request_matches (fst e) (fst old)) eqn:Hm.
    + right. left. unfold request_matches in Hm.
      apply andb_true_iff in Hm. destruct Hm as [_ Hu].
      now apply String.eqb_eq in Hu.
    + left. apply in_map_iff. exists old. split; [reflexivity|].
      apply filter_In. now rewrite Hm.
Qed.

Lemma entry_urls_put_all es c u :
  In u (entry_urls (cache_put_all es c)) <->
  In u (entry_urls es) \/ In u (entry_urls c).
Proof.
  unfold cache_put_all. revert c.
  induction es as [|e es IH]; intros c; simpl; [tauto|].
  rewrite IH, entry_urls_put. intuition congruence.
Qed.

Lemma cache_match_put_same rq r c :
  method rq = "GET" -> cache_match rq (cache_put (rq, r) c) = Some r.
Proof.
  intros Hget. unfold cache_match, cache_put. simpl fst.
  rewrite find_app.
  rewrite (find_filter_drop (fun e => request_matches rq (fst e)) c).
  cbn [find fst]. unfold request_matches.
  rewrite Hget, !String.eqb_refl. reflexivity.
Qed.

Lemma cache_match_put_other rq e c :
  url (fst e) <> url rq -> cache_match rq (cache_put e c) = cache_match rq c.
Proof.
  intros Hne. unfold cache_match, cache_put. rewrite find_app.
  rewrite find_filter_keep.
  - destruct (find _ c); [reflexivity|]. simpl.
    replace (request_matches rq (fst e)) with false; [reflexivity|].
    unfold request_matches. symmetry. apply andb_false_iff. right.
    apply String.eqb_neq. congruence.
  - intros x Hx. apply negb_true_iff.
    unfold request_matches in *. apply andb_true_iff in Hx.
    destruct Hx as [_ Hx]. apply String.eqb_eq in Hx.
    apply andb_false_iff. right. apply String.eqb_neq. congruence.
Qed.

Lemma cache_match_put_all_other rq es c :
  ~ In (url rq) (entry_urls es) ->
  cache_match rq (cache_put_all es c) = cache_match rq c.
Proof.
  unfold cache_put_all. revert c.
  induction es as [|e es IH]; intros c Hnot; simpl in *; [reflexivity|].
  rewrite IH by tauto. apply cache_match_put_other. tauto.
Qed.

Lemma cache_match_put_all rq r es c :
  NoDup (entry_urls es) ->
  (forall e, In e es -> method (fst e) = "GET") ->
  In (rq, r) es ->
  cache_match rq (cache_put_all es c) = Some r.
Proof.
  revert c. induction es as [|e es IH]; intros c Hnd Hget Hin; [destruct Hin|].
  simpl in Hnd. inversion Hnd as [|? ? Hfresh Hnd']; subst.
  change (cache_put_all (e :: es) c) with (cache_put_all es (cache_put e c)).
  destruct Hin as [->|Hin].
  - rewrite cache_match_put_all_other by exact Hfresh.
    apply cache_match_put_same. apply (Hget (rq, r)). now left.
  - apply IH; [exact Hnd' | | exact Hin].
    intros e' He'. apply Hget. now right.
Qed.

(** What [collect] returns on the outcomes of a batch of fetches. *)
Lemma collect_some net reqs es :
  collect (map (fun rq => (rq, net rq)) reqs) = Some es ->
  map fst es = reqs /\
  (forall rq r, In (rq, r) es ->
                net rq = Fulfilled r /\ ok_status (status r) = true) /\
  (forall rq, In rq reqs -> exists r, In (rq, r) es).
Proof.
  revert es. induction reqs as [|rq reqs IH]; simpl; intros es.
  - intros [= <-]. repeat split; intros; contradiction.
  - destruct (net rq) as [r|e] eqn:Hnet; [|discriminate].
    destruct (ok_status (status r)) eqn:Hok; [|discriminate].
    destruct (collect _) as [es'|]; [|discriminate].
    intros [= <-]. destruct (IH es' eq_refl) as (Hfst & Hval & Hall).
    simpl. rewrite Hfst. repeat split.
    + destruct H as [[= <- <-]|H]; [exact Hnet | now apply Hval].
    + destruct H as [[= <- <-]|H]; [exact Hok | now apply (Hval rq0)].
    + intros rq0 [<-|Hin]; [exists r; now left|].
      destruct (Hall rq0 Hin) as [r0 Hr0]. exists r0. now right.
Qed.

Lemma collect_storable net reqs :
  (forall rq, In rq reqs -> storable (net rq) = true) ->
  exists es, collect (map (fun rq => (rq, net rq)) reqs) = Some es.
Proof.
  induction reqs as [|rq reqs IH]; simpl; intros Hok; [now exists []|].
  pose proof (Hok rq (or_introl eq_refl)) as Hrq. unfold storable in Hrq.
  destruct (net rq) as [r|e]; [|discriminate]. rewrite Hrq.
  destruct IH as [es ->]; [intros; apply Hok; now right|]. eauto.
Qed.

Lemma collect_unstorable net reqs rq :
  In rq reqs -> storable (net rq) = false ->
  collect (map (fun rq => (rq, net rq)) reqs) = None.
Proof.
  intros Hin Hbad.
  destruct (collect _) as [es|] eqn:Hc; [|reflexivity].
  destruct (collect_some _ _ _ Hc) as (_ & Hval & Hall).
  destruct (Hall rq Hin) as [r Hr]. destruct (Hval rq r Hr) as [Hnet Hok].
  unfold storable in Hbad. rewrite Hnet, Hok in Hbad. discriminate.
Qed.

(** The install listener, run to completion: the partition is opened,
    then [addAll] runs on it. *)
Lemma run_install_listener w event :
  run (install_listener event) w =
  addAll (mkHandle cache_name) preload_urls
    (set_caches (open_storage cache_name (caches w)) w).
Proof.
  unfold install_listener, waitUntil, caches_open, cache_addAll, host. simpl.
  destruct (addAll _ _ _). reflexivity.
Qed.

Lemma storage_match_first req before name c after r :
  (forall n' c', In (n', c') before -> cache_match req c' = None) ->
  cache_match req c = Some r ->
  storage_match req (before ++ (name, c) :: after) = Some r.
Proof.
  intros Hbefore Hc. induction before as [|[n d] before IH]; simpl.
  - now rewrite Hc.
  - rewrite (Hbefore n d (or_introl eq_refl)). apply IH.
    intros n' c' Hin. apply (Hbefore n' c'). now right.
Qed.

(** The fetch listener, run to completion. *)
Lemma run_fetch_listener w event :
  run (fetch_listener event) w =
  match storage_match (request event) (caches w) with
  | Some r => (Fulfilled r, w)
  | None => (network w (request event), log_requests [request event] w)
  end.
Proof.
  unfold fetch_listener, respondWith, caches_match, host. simpl.
  destruct (storage_match (request event) (caches w)); reflexivity.
Qed.

End Facts.

(** ** The fetch listener *)

Module FetchGate.
Import Host Js Sw Notions Facts.

(** C1: when some stored entry matches the intercepted request, the fetch
    listener fulfils with a response stored under a matching entry (the
    one the storage lookup finds) and leaves the world as it was: the
    network log has no new call and no cache has changed. *)
Theorem hit_serves_stored_without_network w event :
  (exists resp, stored (request event) resp (caches w)) ->
  exists resp,
    run (fetch_listener event) w = (Fulfilled resp, w) /\
    storage_match (request event) (caches w) = Some resp /\
    stored (request event) resp (caches w).
Proof.
  intros [r0 Hst]. rewrite run_fetch_listener.
  destruct (storage_match (request event) (caches w)) as [r|] eqn:Hm.
  - exists r. repeat split. now apply storage_match_some.
  - exfalso. exact (storage_match_none _ _ _ Hm Hst).
Qed.

Lemma hit_serves_stored_without_network_witness :
  exists resp,
    run (fetch_listener (Samples.ev "/")) Samples.installed_offline
      = (Fulfilled resp, Samples.installed_offline) /\
    storage_match (get_request "/") Samples.installed_caches = Some resp /\
    stored (get_request "/") resp Samples.installed_caches.
Proof.
  apply (hit_serves_stored_without_network Samples.installed_offline
           (Samples.ev "/")).
  exists Samples.page, cache_name, (partition Samples.installed), (get_request "/").
  simpl. auto.
Defined.

(** C2: when no stored entry matches the intercepted request, the fetch
    listener settles exactly as the network does for that same request,
    fulfilment or rejection alike, and the network log grows by that one
    request. *)
Theorem miss_passes_network_through w event :
  (forall resp, ~ stored (request event) resp (caches w)) ->
  run (fetch_listener event) w =
    (network w (request event), log_requests [request event] w).
Proof.
  intros Hno. rewrite run_fetch_listener.
  destruct (storage_match (request event) (caches w)) as [r|] eqn:Hm;
    [|reflexivity].
  exfalso. exact (Hno r (storage_match_some _ _ _ Hm)).
Qed.

Lemma miss_passes_network_through_witness :
  run (fetch_listener (Samples.ev "/missing")) Samples.installed =
    (Fulfilled Samples.not_found,
     log_requests [get_request "/missing"] Samples.installed).
Proof.
  apply (miss_passes_network_through Samples.installed (Samples.ev "/missing")).
  intros resp Hst. eapply storage_match_none; [|exact Hst]. reflexivity.
Defined.


(** C6: when no stored entry matches and the network fetch of the request
    rejects, the promise the fetch listener answers with rejects, and with
    the very reason the network gave: the rejection is not caught and not
    replaced. *)
Theorem miss_and_network_failure_rejects w event reason :
  (forall resp, ~ stored (request event) resp (caches w)) ->
  network w (request event) = Rejected reason ->
  run (fetch_listener event) w =
    (Rejected reason, log_requests [request event] w).
Proof.
  intros Hno Hnet. rewrite run_fetch_listener.
  destruct (storage_match (request event) (caches w)) as [r|] eqn:Hm.
  - exfalso. exact (Hno r (storage_match_some _ _ _ Hm)).
  - now rewrite Hnet.
Qed.

Lemma miss_and_network_failure_rejects_witness :
  run (fetch_listener (Samples.ev "/missing")) Samples.installed_offline =
    (Rejected type_error,
     log_requests [get_request "/missing"] Samples.installed_offline).
Proof.
  apply (miss_and_network_failure_rejects Samples.installed_offline
           (Samples.ev "/missing") type_error).
  - intros resp Hst. eapply storage_match_none; [|exact Hst]. reflexivity.
  - reflexivity.
Defined.

Lemma step_fetch_listener_caches n w event :
  caches (snd (iter_step n (fetch_listener event) w)) = caches w.
Proof.
  destruct n as [|n]; [reflexivity|].
  unfold fetch_listener, respondWith, caches_match, host. simpl.
  destruct (storage_match (request event) (caches w)) as [r|]; simpl.
  - induction n as [|n IH]; [reflexivity | exact IH].
  - destruct n as [|n]; [reflexivity|]. simpl.
    induction n as [|n IH]; [reflexivity | exact IH].
Qed.

(** C7: handling a fetch event leaves every cache of the storage exactly
    as it was, on a hit and on a miss, when the listener has run to
    completion and after any number of its host calls; the listener only
    appends to the network log. *)
Theorem fetch_never_writes_caches w event :
  caches (snd (run (fetch_listener event) w)) = caches w /\
  network (snd (run (fetch_listener event) w)) = network w /\
  forall n, caches (snd (iter_step n (fetch_listener event) w)) = caches w.
Proof.
  rewrite run_fetch_listener.
  destruct (storage_match (request event) (caches w)); simpl;
    repeat split; intros; apply step_fetch_listener_caches.
Qed.

(** C4, as stated, fails: two worlds with the same [expense-cache-v1]
    partition (empty) and the same network (down) answer the same request
    differently, because the lookup also finds entries of another cache
    of the origin. *)
Lemma lookup_reaches_other_caches :
  partition Samples.two_caches = partition Samples.one_cache /\
  network Samples.two_caches = network Samples.one_cache /\
  cache_match (get_request "/static/app.js") (partition Samples.two_caches)
    = None /\
  run (fetch_listener (Samples.ev "/static/app.js")) Samples.two_caches
    = (Fulfilled Samples.script, Samples.two_caches) /\
  fst (run (fetch_listener (Samples.ev "/static/app.js")) Samples.one_cache)
    = Rejected type_error.
Proof. repeat split. Qed.

(** C4, amended: the lookup asks every cache of the storage in creation
    order and the first match wins: when a cache holds a match and no cache
    created before it does, the listener fulfils with that cache's match,
    whatever later caches hold, and makes no network call; when no cache
    holds a match the request goes to the network; so the lookup and the
    listener's outcome are decided by the [expense-cache-v1] partition
    alone exactly when no other cache holds a match for the request. *)
Theorem lookup_first_match_in_creation_order w event :
  (forall before name c after r,
     caches w = before ++ (name, c) :: after ->
     (forall n' c', In (n', c') before ->
                    cache_match (request event) c' = None) ->
     cache_match (request event) c = Some r ->
     run (fetch_listener event) w = (Fulfilled r, w)) /\
  ((forall name c, In (name, c) (caches w) ->
                   cache_match (request event) c = None) ->
   run (fetch_listener event) w =
     (network w (request event), log_requests [request event] w)) /\
  (storage_wf (caches w) ->
   (forall name c, In (name, c) (caches w) -> name <> cache_name ->
                   cache_match (request event) c = None) ->
   storage_match (request event) (caches w)
     = cache_match (request event) (partition w) /\
   run (fetch_listener event) w =
     match cache_match (request event) (partition w) with
     | Some r => (Fulfilled r, w)
     | None => (network w (request event), log_requests [request event] w)
     end).
Proof.
  split; [|split].
  - intros before name c after r Hcs Hbefore Hc.
    rewrite run_fetch_listener, Hcs.
    now rewrite (storage_match_first _ before name c after r Hbefore Hc).
  - intros Hnone. rewrite run_fetch_listener.
    now rewrite (storage_match_all_none _ _ Hnone).
  - intros Hwf Hothers.
    pose proof (storage_match_alone cache_name _ _ Hwf Hothers) as Heq.
    fold (partition w) in Heq. split; [exact Heq|].
    rewrite run_fetch_listener, Heq. reflexivity.
Qed.

Lemma lookup_first_match_in_creation_order_witness :
  run (fetch_listener (Samples.ev "/")) Samples.shadowed
    = (Fulfilled Samples.not_found, Samples.shadowed) /\
  run (fetch_listener (Samples.ev "/missing")) Samples.shadowed
    = (network Samples.shadowed (get_request "/missing"),
       log_requests [get_request "/missing"] Samples.shadowed) /\
  (storage_match (get_request "/") (caches Samples.mixed)
     = cache_match (get_request "/") (partition Samples.mixed) /\
   run (fetch_listener (Samples.ev "/")) Samples.mixed =
     match cache_match (get_request "/") (partition Samples.mixed) with
     | Some r => (Fulfilled r, Samples.mixed)
     | None => (network Samples.mixed (get_request "/"),
                log_requests [get_request "/"] Samples.mixed)
     end).
Proof.
  split; [|split].
  - apply (proj1 (lookup_first_match_in_creation_order Samples.shadowed
                    (Samples.ev "/"))
             [("empty-cache", [])] "page-cache"
             [(get_request "/", Samples.not_found)]
             [(cache_name, [(get_request "/", Samples.page)])]
             Samples.not_found).
    + reflexivity.
    + intros n' c' [Heq|[]]. injection Heq as <- <-. reflexivity.
    + reflexivity.
  - apply (proj1 (proj2 (lookup_first_match_in_creation_order Samples.shadowed
                           (Samples.ev "/missing")))).
    intros name c [Heq|[Heq|[Heq|[]]]]; injection Heq as <- <-; reflexivity.
  - apply (proj2 (proj2 (lookup_first_match_in_creation_order Samples.mixed
                           (Samples.ev "/")))).
    + repeat constructor; simpl; intuition discriminate.
    + intros name c [Heq|[Heq|[]]] Hne; injection Heq as <- <-;
        [now elim Hne | reflexivity].
Defined.

End FetchGate.

(** ** The install listener *)

Module Install.
Import Host Js Sw Notions Facts.

Lemma preload_requests_urls es :
  map fst es = map get_request preload_urls -> entry_urls es = preload_urls.
Proof.
  intros H. unfold entry_urls. rewrite <- (map_map fst url), H. reflexivity.
Qed.

(** A successful install: the batch [es] pairs each preload request with
    the response the network gave, and is put into the partition. *)
Lemma install_fulfilled w event :
  preload_ok w ->
  exists es,
    run (install_listener event) w =
      (Fulfilled tt,
       mkWorld (update_cache cache_name (cache_put_all es)
                  (open_storage cache_name (caches w)))
               (network w)
               (netlog w ++ map get_request preload_urls)) /\
    map fst es = map get_request preload_urls /\
    (forall rq r, In (rq, r) es ->
                  network w rq = Fulfilled r /\ ok_status (status r) = true) /\
    (forall rq, In rq (map get_request preload_urls) -> exists r, In (rq, r) es).
Proof.
  intros Hok. rewrite run_install_listener. unfold addAll.
  cbn [network set_caches log_requests caches netlog handle_name].
  destruct (collect_storable (network w) (map get_request preload_urls))
    as [es Hes].
  { intros rq Hin. apply in_map_iff in Hin. destruct Hin as (u & <- & Hu).
    now apply Hok. }
  rewrite Hes. destruct (collect_some _ _ _ Hes) as (Hfst & Hval & Hall).
  exists es. repeat split; try assumption; now apply (Hval rq r).
Qed.

(** A failed install: the partition has been opened and nothing else has
    happened to the storage. *)
Lemma install_rejected w event u :
  In u preload_urls -> storable (network w (get_request u)) = false ->
  run (install_listener event) w =
    (Rejected type_error,
     mkWorld (open_storage cache_name (caches w)) (network w)
             (netlog w ++ map get_request preload_urls)).
Proof.
  intros Hin Hbad. rewrite run_install_listener. unfold addAll.
  cbn [network set_caches log_requests caches netlog handle_name].
  rewrite (collect_unstorable (network w) _ (get_request u));
    [reflexivity | now apply in_map | exact Hbad].
Qed.

Lemma install_fulfilled_inv w event :
  fst (run (install_listener event) w) = Fulfilled tt -> preload_ok w.
Proof.
  intros Hrun u Hin.
  destruct (storable (network w (get_request u))) eqn:Hs; [reflexivity|].
  rewrite (install_rejected w event u Hin Hs) in Hrun. discriminate.
Qed.

Lemma preload_ok_dec w : preload_ok w \/ ~ preload_ok w.
Proof.
  unfold preload_ok.
  destruct (forallb (fun u => storable (network w (get_request u)))
              preload_urls) eqn:Hall.
  - left. intros u Hin. rewrite forallb_forall in Hall. now apply Hall.
  - right. intros H. apply Bool.not_true_iff_false in Hall. apply Hall.
    apply forallb_forall. exact H.
Qed.

Lemma partition_open w net log :
  partition (mkWorld (open_storage cache_name (caches w)) net log) = partition w.
Proof.
  unfold partition. cbn [caches]. now rewrite lookup_cache_open.
Qed.

Lemma partition_put_all w es net log :
  partition (mkWorld (update_cache cache_name (cache_put_all es)
                        (open_storage cache_name (caches w))) net log)
  = cache_put_all es (partition w).
Proof.
  unfold partition. cbn [caches].
  now rewrite lookup_cache_update, lookup_cache_open.
Qed.

Lemma preload_bad_url w :
  ~ preload_ok w ->
  exists u, In u preload_urls /\ storable (network w (get_request u)) = false.
Proof.
  intros Hbad.
  destruct (existsb (fun u => negb (storable (network w (get_request u))))
              preload_urls) eqn:Hex.
  - apply existsb_exists in Hex. destruct Hex as (u & Hin & Hu).
    exists u. split; [exact Hin | now apply negb_true_iff].
  - exfalso. apply Hbad. intros u Hin.
    destruct (storable (network w (get_request u))) eqn:Hs; [reflexivity|].
    assert (existsb (fun u => negb (storable (network w (get_request u))))
              preload_urls = true) as Habs.
    { apply existsb_exists. exists u. now rewrite Hs. }
    rewrite Habs in Hex. discriminate.
Qed.

Lemma batch_entries_get (es : Cache) :
  map fst es = map get_request preload_urls ->
  forall e, In e es -> method (fst e) = "GET".
Proof.
  intros Hfst e He. apply (in_map fst) in He. rewrite Hfst in He.
  apply in_map_iff in He. now destruct He as (u' & <- & _).
Qed.

Lemma preload_urls_distinct : NoDup preload_urls.
Proof. repeat constructor; simpl; intuition discriminate. Qed.

(** After a successful install the partition answers each preload URL with
    the response the network gave during that install. *)
Lemma install_stores_fetched w event u :
  fst (run (install_listener event) w) = Fulfilled tt ->
  In u preload_urls ->
  exists r, network w (get_request u) = Fulfilled r /\
            cache_match (get_request u)
              (partition (snd (run (install_listener event) w))) = Some r.
Proof.
  intros Hrun Hin. apply install_fulfilled_inv in Hrun.
  destruct (install_fulfilled w event Hrun) as (es & -> & Hfst & Hval & Hall).
  cbn [snd]. rewrite partition_put_all.
  destruct (Hall (get_request u)) as [r Hr]; [now apply in_map|].
  exists r. split; [apply (Hval _ _ Hr)|].
  apply cache_match_put_all; [| |exact Hr].
  - rewrite (preload_requests_urls es Hfst). exact preload_urls_distinct.
  - now apply batch_entries_get.
Qed.

(** C3, as stated, fails: the install succeeds on a partition that holds
    an entry outside the preload set, and that entry is still there
    afterwards, next to the two preloaded ones. *)
Lemma install_keeps_foreign_entries :
  fst (run (install_listener Samples.install_ev) Samples.leftover)
    = Fulfilled tt /\
  entry_urls
    (partition (snd (run (install_listener Samples.install_ev) Samples.leftover)))
    = ["/static/app.js"; "/"; "/static/style.css"] /\
  ~ In "/static/app.js" preload_urls.
Proof.
  repeat split. simpl. intros [H|[H|[]]]; discriminate.
Qed.

(** C5: when the fetch of one of the two preload URLs fails (the network
    rejects it or answers with a status [addAll] does not store), the
    install listener's promise rejects, so the install fails; the entries of
    the partition are those it had before and the storage differs from the
    old one only in that the partition has been opened (nothing of the batch
    is stored); each preload URL has been requested once and no more. *)
Theorem preload_failure_fails_install w event u :
  In u preload_urls ->
  storable (network w (get_request u)) = false ->
  let w' := snd (run (install_listener event) w) in
  fst (run (install_listener event) w) = Rejected type_error /\
  partition w' = partition w /\
  caches w' = open_storage cache_name (caches w) /\
  netlog w' = netlog w ++ map get_request preload_urls.
Proof.
  intros Hin Hbad. rewrite (install_rejected w event u Hin Hbad).
  cbn [fst snd caches netlog]. rewrite partition_open. repeat split.
Qed.

Lemma preload_failure_fails_install_witness :
  let w := mkWorld Samples.installed_caches Samples.style_missing [] in
  let w' := snd (run (install_listener Samples.install_ev) w) in
  fst (run (install_listener Samples.install_ev) w) = Rejected type_error /\
  partition w' = partition w /\
  caches w' = open_storage cache_name (caches w) /\
  netlog w' = netlog w ++ map get_request preload_urls.
Proof.
  apply (preload_failure_fails_install
           (mkWorld Samples.installed_caches Samples.style_missing [])
           Samples.install_ev "/static/style.css").
  - simpl. auto.
  - reflexivity.
Defined.

(** C8, as stated, fails: the partition exists and holds entries for the
    two preload URLs, the network is down, and re-running the install
    listener rejects. *)
Lemma reinstall_offline_rejects :
  entry_urls (partition Samples.installed_offline) = preload_urls /\
  fst (run (install_listener Samples.install_ev) Samples.installed_offline)
    = Rejected type_error.
Proof. split; reflexivity. Qed.

(** C10: the install listener does not look at what the storage holds.
    On every run it requests the two preload URLs from the network, once
    each; it fulfils exactly when both fetches give a storable response and
    rejects otherwise, whatever caches and entries exist; the outcome is the
    same for any other cache storage; and when it fulfils, the partition
    holds under each preload URL the response just fetched, in place of
    whatever was stored there. *)
Theorem install_always_refetches w event :
  netlog (snd (run (install_listener event) w))
    = netlog w ++ map get_request preload_urls /\
  (preload_ok w <-> fst (run (install_listener event) w) = Fulfilled tt) /\
  (~ preload_ok w <-> fst (run (install_listener event) w) = Rejected type_error) /\
  (forall cs, fst (run (install_listener event) (set_caches cs w))
              = fst (run (install_listener event) w)) /\
  (forall u, In u preload_urls ->
     fst (run (install_listener event) w) = Fulfilled tt ->
     exists r, network w (get_request u) = Fulfilled r /\
               cache_match (get_request u)
                 (partition (snd (run (install_listener event) w))) = Some r).
Proof.
  assert (forall w', preload_ok w' ->
            fst (run (install_listener event) w') = Fulfilled tt) as Hyes.
  { intros w' Hok. now destruct (install_fulfilled w' event Hok) as (es & -> & _). }
  assert (forall w', ~ preload_ok w' ->
            fst (run (install_listener event) w') = Rejected type_error) as Hno.
  { intros w' Hbad. destruct (preload_bad_url w' Hbad) as (u & Hin & Hs).
    now rewrite (install_rejected w' event u Hin Hs). }
  split; [|split; [|split; [|split]]].
  - destruct (preload_ok_dec w) as [Hok|Hbad].
    + now destruct (install_fulfilled w event Hok) as (es & -> & _).
    + destruct (preload_bad_url w Hbad) as (u & Hin & Hs).
      now rewrite (install_rejected w event u Hin Hs).
  - split; [apply Hyes | apply install_fulfilled_inv].
  - split; [apply Hno|]. intros Hrej Hok. rewrite (Hyes w Hok) in Hrej.
    discriminate.
  - intros cs. destruct (preload_ok_dec w) as [Hok|Hbad].
    + rewrite (Hyes w Hok). apply Hyes. exact Hok.
    + rewrite (Hno w Hbad). apply Hno. exact Hbad.
  - intros u Hin Hrun.
    exact (install_stores_fetched w event u Hrun Hin).
Qed.

End Install.

(** ** Interleaved fetch handlers *)

Module Interleaving.
Import Host Js Sw Notions Facts.

Lemma same_view_refl w : same_view w w.
Proof. split; reflexivity. Qed.

Lemma same_view_trans w1 w2 w3 :
  same_view w1 w2 -> same_view w2 w3 -> same_view w1 w3.
Proof. intros [H1 H2] [H3 H4]. split; congruence. Qed.

Lemma same_view_sym w1 w2 : same_view w1 w2 -> same_view w2 w1.
Proof. intros [H1 H2]. split; congruence. Qed.

(** One host call of a reading promise: what the promise goes on with
    depends on caches and network only, and neither changes. *)
Lemma step_reads_only {A : Type} (p : Promise A) w1 w2 :
  reads_only p -> same_view w1 w2 ->
  fst (step p w1) = fst (step p w2) /\
  same_view (snd (step p w1)) w1 /\
  reads_only (fst (step p w1)).
Proof.
  intros Hro [Hc Hn]. destruct Hro as [s|req k Hk|req k Hk]; simpl.
  - repeat split. constructor.
  - rewrite Hc. repeat split. apply Hk.
  - rewrite Hn. repeat split. apply Hk.
Qed.

Lemma iter_step_reads_only {A : Type} n (p : Promise A) w1 w2 :
  reads_only p -> same_view w1 w2 ->
  fst (iter_step n p w1) = fst (iter_step n p w2) /\
  same_view (snd (iter_step n p w1)) w1.
Proof.
  revert p w1 w2. induction n as [|n IH]; intros p w1 w2 Hro Hv; simpl.
  - split; [reflexivity | apply same_view_refl].
  - destruct (step_reads_only p w1 w2 Hro Hv) as (Hp & Hv1 & Hro1).
    destruct (step_reads_only p w2 w1 Hro (same_view_sym _ _ Hv)) as (_ & Hv2 & _).
    destruct (step p w1) as [p1 w1'], (step p w2) as [p2 w2']. simpl in *.
    subst p2.
    assert (same_view w1' w2') as Hv'.
    { eapply same_view_trans; [exact Hv1|].
      eapply same_view_trans; [exact Hv|]. now apply same_view_sym. }
    destruct (IH p1 w1' w2' Hro1 Hv') as [IH1 IH2]. split; [exact IH1|].
    eapply same_view_trans; eassumption.
Qed.

Lemma iter_step_succ {A : Type} n (p : Promise A) w :
  reads_only p ->
  fst (iter_step (S n) p w) = fst (iter_step n (fst (step p w)) w).
Proof.
  intros Hro. simpl.
  destruct (step_reads_only p w w Hro (same_view_refl w)) as (_ & Hv & Hro').
  destruct (step p w) as [p' w']. simpl in *.
  apply iter_step_reads_only; assumption.
Qed.

Lemma iter_step_settled {A : Type} n (s : Settled A) w :
  iter_step n (Settle s) w = (Settle s, w).
Proof. induction n as [|n IH]; simpl; [reflexivity | exact IH]. Qed.

(** One turn of the pool: the chosen promise makes its host call, the
    others stay as they are. *)
Lemma step_at_reads_only {A : Type} i (ps : list (Promise A)) w :
  Forall reads_only ps ->
  same_view (snd (step_at i ps w)) w /\
  Forall reads_only (fst (step_at i ps w)) /\
  forall j, nth_error (fst (step_at i ps w)) j =
            if Nat.eqb j i
            then option_map (fun p => fst (step p w)) (nth_error ps j)
            else nth_error ps j.
Proof.
  revert i. induction ps as [|p ps IH]; intros i Hall; simpl.
  - split; [apply same_view_refl | split; [constructor|]]. intros j.
    destruct (Nat.eqb j i), j; reflexivity.
  - inversion Hall as [|? ? Hp Hps]; subst. destruct i as [|i].
    + destruct (step_reads_only p w w Hp (same_view_refl w)) as (_ & Hv & Hro).
      destruct (step p w) as [p' w'] eqn:Hstep. simpl in *.
      split; [exact Hv | split; [now constructor|]].
      intros [|j]; simpl; [now rewrite Hstep | reflexivity].
    + destruct (IH i Hps) as (Hv & Hro & Hnth).
      destruct (step_at i ps w) as [ps' w']. simpl in *.
      split; [exact Hv | split; [now constructor|]].
      intros [|j]; [reflexivity | apply Hnth].
Qed.

(** Any schedule over a pool of reading promises: the [i]-th promise is
    where as many host calls as the schedule gave it take it from the
    initial world, whatever the other promises did in between. *)
Lemma run_schedule_reads_only {A : Type} sched :
  forall (ps : list (Promise A)) w w0,
  Forall reads_only ps -> same_view w w0 ->
  same_view (snd (run_schedule sched ps w)) w0 /\
  forall i, nth_error (fst (run_schedule sched ps w)) i =
            option_map
              (fun p => fst (iter_step (count_occ Nat.eq_dec sched i) p w0))
              (nth_error ps i).
Proof.
  induction sched as [|j rest IH]; intros ps w w0 Hall Hv.
  - simpl. split; [exact Hv|]. intros i. now destruct (nth_error ps i).
  - cbn [run_schedule].
    destruct (step_at_reads_only j ps w Hall) as (Hv1 & Hall1 & Hnth).
    destruct (step_at j ps w) as [ps1 w1]. cbn [fst snd] in *.
    destruct (IH ps1 w1 w0 Hall1 (same_view_trans _ _ _ Hv1 Hv)) as [Hv' Hres].
    split; [exact Hv'|]. intros i. rewrite Hres, Hnth.
    cbn [count_occ]. destruct (Nat.eq_dec j i) as [->|Hne].
    + rewrite Nat.eqb_refl. destruct (nth_error ps i) as [p|] eqn:Hp;
        [|reflexivity].
      cbn [option_map]. f_equal.
      assert (reads_only p) as Hro.
      { rewrite Forall_forall in Hall. apply Hall.
        eapply nth_error_In. exact Hp. }
      rewrite iter_step_succ by exact Hro.
      destruct (step_reads_only p w w0 Hro Hv) as (-> & _). reflexivity.
    + replace (Nat.eqb i j) with false; [reflexivity|].
      symmetry. apply Nat.eqb_neq. congruence.
Qed.

Lemma fetch_listener_reads_only event : reads_only (fetch_listener event).
Proof.
  unfold fetch_listener, respondWith, caches_match, host. simpl.
  constructor. intros [[r|]|e]; simpl; repeat constructor.
Qed.

(** Two host calls settle the fetch listener, with the outcome of [run]. *)
Lemma fetch_listener_settles n w event :
  2 <= n ->
  fst (iter_step n (fetch_listener event) w)
  = Settle (fst (run (fetch_listener event) w)).
Proof.
  intros Hn. destruct n as [|[|n]]; [lia | lia |].
  rewrite run_fetch_listener.
  unfold fetch_listener, respondWith, caches_match, host. simpl.
  destruct (storage_match (request event) (caches w)); simpl;
    now rewrite iter_step_settled.
Qed.



End Interleaving.

(** ** More on storages and batches *)

Module StorageFacts.
Import Host Js Sw Notions Facts.

Lemma storage_match_app req cs1 cs2 :
  storage_match req (cs1 ++ cs2) =
  match storage_match req cs1 with
  | Some r => Some r
  | None => storage_match req cs2
  end.
Proof.
  induction cs1 as [|[n c] cs1 IH]; simpl; [reflexivity|].
  destruct (cache_match req c); [reflexivity | exact IH].
Qed.

Lemma storage_match_open req name cs :
  storage_match req (open_storage name cs) = storage_match req cs.
Proof.
  unfold open_storage. destruct (lookup_cache name cs); [reflexivity|].
  rewrite storage_match_app. simpl.
  now destruct (storage_match req cs).
Qed.

Lemma storage_match_update req name f cs :
  (forall c, cache_match req (f c) = cache_match req c) ->
  storage_match req (update_cache name f cs) = storage_match req cs.
Proof.
  intros Hf. induction cs as [|[n c] cs IH]; simpl; [reflexivity|].
  destruct (String.eqb n name); simpl.
  - now rewrite Hf.
  - now rewrite IH.
Qed.

Lemma lookup_cache_app name cs1 cs2 :
  lookup_cache name (cs1 ++ cs2) =
  match lookup_cache name cs1 with
  | Some c => Some c
  | None => lookup_cache name cs2
  end.
Proof.
  induction cs1 as [|[n c] cs1 IH]; simpl; [reflexivity|].
  destruct (String.eqb n name); [reflexivity | exact IH].
Qed.

Lemma lookup_cache_open_other n name cs :
  n <> name -> lookup_cache n (open_storage name cs) = lookup_cache n cs.
Proof.
  intros Hne. unfold open_storage.
  destruct (lookup_cache name cs); [reflexivity|].
  rewrite lookup_cache_app. simpl.
  replace (String.eqb name n) with false.
  - now destruct (lookup_cache n cs).
  - symmetry. apply String.eqb_neq. congruence.
Qed.

Lemma lookup_cache_update_other n name f cs :
  n <> name -> lookup_cache n (update_cache name f cs) = lookup_cache n cs.
Proof.
  intros Hne. induction cs as [|[m c] cs IH]; simpl; [reflexivity|].
  destruct (String.eqb m name) eqn:Hm; simpl.
  - apply String.eqb_eq in Hm. subst m.
    replace (String.eqb name n) with false; [reflexivity|].
    symmetry. apply String.eqb_neq. congruence.
  - destruct (String.eqb m n); [reflexivity | exact IH].
Qed.

Lemma names_update name f cs :
  map fst (update_cache name f cs) = map fst cs.
Proof.
  induction cs as [|[n c] cs IH]; simpl; [reflexivity|].
  destruct (String.eqb n name); simpl; [reflexivity | now rewrite IH].
Qed.

Lemma lookup_cache_none name cs :
  lookup_cache name cs = None <-> ~ In name (map fst cs).
Proof.
  induction cs as [|[n c] cs IH]; simpl; [tauto|].
  destruct (String.eqb n name) eqn:Hn.
  - apply String.eqb_eq in Hn. split; [discriminate | tauto].
  - apply String.eqb_neq in Hn. rewrite IH. tauto.
Qed.

Lemma open_storage_wf name cs :
  storage_wf cs -> storage_wf (open_storage name cs).
Proof.
  unfold storage_wf, open_storage. intros Hwf.
  destruct (lookup_cache name cs) eqn:Hl; [exact Hwf|].
  apply lookup_cache_none in Hl. rewrite map_app. simpl.
  apply NoDup_app; [exact Hwf | repeat constructor; simpl; tauto |].
  intros a Ha [<-|[]]. contradiction.
Qed.

Lemma open_storage_twice name cs :
  open_storage name (open_storage name cs) = open_storage name cs.
Proof.
  unfold open_storage at 1. now rewrite lookup_cache_open.
Qed.

Lemma update_cache_twice name f cs :
  (forall c, f (f c) = f c) ->
  update_cache name f (update_cache name f cs) = update_cache name f cs.
Proof.
  intros Hf. induction cs as [|[n c] cs IH]; simpl; [reflexivity|].
  destruct (String.eqb n name) eqn:Hn; simpl; rewrite Hn.
  - now rewrite Hf.
  - now rewrite IH.
Qed.

Lemma open_after_update name f cs :
  open_storage name (update_cache name f (open_storage name cs))
  = update_cache name f (open_storage name cs).
Proof.
  unfold open_storage at 1.
  now rewrite lookup_cache_update, lookup_cache_open.
Qed.

Lemma in_update_other n c name f cs :
  In (n, c) (update_cache name f cs) -> n <> name -> In (n, c) cs.
Proof.
  induction cs as [|[m d] cs IH]; simpl; [tauto|].
  destruct (String.eqb m name) eqn:Hm; simpl.
  - apply String.eqb_eq in Hm. subst m.
    intros [[= <- <-]|Hin] Hne; [now elim Hne | now right].
  - intros [Heq|Hin] Hne; [now left | right; now apply IH].
Qed.

Lemma in_open_other n c name cs :
  In (n, c) (open_storage name cs) -> n <> name -> In (n, c) cs.
Proof.
  unfold open_storage. destruct (lookup_cache name cs); [tauto|].
  rewrite in_app_iff. simpl.
  intros [Hin|[[= <- <-]|[]]] Hne; [exact Hin | now elim Hne].
Qed.

(** A cache of the storage that answers a request makes the storage
    answer it. *)
Lemma storage_match_of_cache req name cs c r :
  lookup_cache name cs = Some c -> cache_match req c = Some r ->
  exists r', storage_match req cs = Some r'.
Proof.
  induction cs as [|[n d] cs IH]; simpl; [discriminate|].
  intros Hl Hm. destruct (cache_match req d) as [r0|] eqn:Hd; [eauto|].
  destruct (String.eqb n name).
  - injection Hl as <-. congruence.
  - now apply IH.
Qed.

Lemma cache_match_not_get req c :
  method req <> "GET" -> cache_match req c = None.
Proof.
  intros Hm. unfold cache_match.
  replace (find (fun e => request_matches req (fst e)) c) with
    (@None (Request * Response)); [reflexivity|].
  symmetry. induction c as [|e c IH]; simpl; [reflexivity|].
  unfold request_matches at 1.
  replace (String.eqb (method req) "GET") with false; [exact IH|].
  symmetry. now apply String.eqb_neq.
Qed.

(** The install listener in terms of the batch. *)
Lemma run_install_batch w event :
  run (install_listener event) w =
  match preload_batch w with
  | Some es =>
      (Fulfilled tt,
       mkWorld (update_cache cache_name (cache_put_all es)
                  (open_storage cache_name (caches w)))
               (network w) (netlog w ++ map get_request preload_urls))
  | None =>
      (Rejected type_error,
       mkWorld (open_storage cache_name (caches w)) (network w)
               (netlog w ++ map get_request preload_urls))
  end.
Proof.
  rewrite run_install_listener. unfold addAll, preload_batch.
  cbn [network set_caches log_requests caches netlog handle_name].
  destruct (collect _); reflexivity.
Qed.

Lemma preload_batch_urls w es :
  preload_batch w = Some es -> entry_urls es = preload_urls.
Proof.
  intros H. apply collect_some in H. destruct H as (Hfst & _).
  unfold entry_urls. rewrite <- (map_map fst url), Hfst. reflexivity.
Qed.

Lemma preload_batch_get w es e :
  preload_batch w = Some es -> In e es -> method (fst e) = "GET".
Proof.
  intros H He. apply collect_some in H. destruct H as (Hfst & _).
  apply (in_map fst) in He. rewrite Hfst in He.
  apply in_map_iff in He. now destruct He as (u & <- & _).
Qed.

End StorageFacts.

(** ** What an install changes, and what a fetch sees afterwards *)

Module InstallThenFetch.
Import Host Js Sw Notions Facts StorageFacts.

Lemma fetch_outcome w event :
  fst (run (fetch_listener event) w) =
  match storage_match (request event) (caches w) with
  | Some r => Fulfilled r
  | None => network w (request event)
  end.
Proof.
  rewrite run_fetch_listener.
  now destruct (storage_match (request event) (caches w)).
Qed.

Lemma install_fulfilled_batch w event :
  fst (run (install_listener event) w) = Fulfilled tt ->
  exists es, preload_batch w = Some es /\
    caches (snd (run (install_listener event) w))
      = update_cache cache_name (cache_put_all es)
          (open_storage cache_name (caches w)).
Proof.
  rewrite run_install_batch.
  destruct (preload_batch w) as [es|]; [|discriminate].
  intros _. now exists es.
Qed.

Lemma install_storage_match w event req :
  ~ In (url req) preload_urls ->
  storage_match req (caches (snd (run (install_listener event) w)))
  = storage_match req (caches w).
Proof.
  intros Hurl. rewrite run_install_batch.
  destruct (preload_batch w) as [es|] eqn:Hb; cbn [snd caches].
  - rewrite storage_match_update; [apply storage_match_open|].
    intros c. apply cache_match_put_all_other.
    now rewrite (preload_batch_urls w es Hb).
  - apply storage_match_open.
Qed.

(** X1: the install listener touches no cache but [expense-cache-v1]: every
    cache of another name is, after the run, exactly what it was before,
    whether the install succeeds or fails. *)
Theorem install_leaves_other_caches w event name :
  name <> cache_name ->
  lookup_cache name (caches (snd (run (install_listener event) w)))
  = lookup_cache name (caches w).
Proof.
  intros Hne. rewrite run_install_batch.
  destruct (preload_batch w); cbn [snd caches].
  - rewrite lookup_cache_update_other by exact Hne.
    now apply lookup_cache_open_other.
  - now apply lookup_cache_open_other.
Qed.

Lemma install_leaves_other_caches_witness :
  lookup_cache "page-cache"
    (caches (snd (run (install_listener Samples.install_ev) Samples.two_caches)))
  = lookup_cache "page-cache" (caches Samples.two_caches).
Proof.
  apply (install_leaves_other_caches Samples.two_caches Samples.install_ev
           "page-cache").
  discriminate.
Defined.

(** X2: the install listener keeps cache names unique: from a storage without
    two caches of one name it leaves such a storage, and the names after
    the run are the names before, with [expense-cache-v1] added last when
    it was missing. *)
Theorem install_keeps_names_unique w event :
  storage_wf (caches w) ->
  storage_wf (caches (snd (run (install_listener event) w))) /\
  map fst (caches (snd (run (install_listener event) w)))
  = if in_dec string_dec cache_name (map fst (caches w))
    then map fst (caches w)
    else map fst (caches w) ++ [cache_name].
Proof.
  intros Hwf.
  assert (map fst (caches (snd (run (install_listener event) w)))
          = map fst (open_storage cache_name (caches w))) as Hnames.
  { rewrite run_install_batch. destruct (preload_batch w); cbn [snd caches];
      [apply names_update | reflexivity]. }
  split.
  - unfold storage_wf. rewrite Hnames. now apply open_storage_wf.
  - rewrite Hnames. unfold open_storage.
    destruct (lookup_cache cache_name (caches w)) eqn:Hl;
      destruct (in_dec string_dec cache_name (map fst (caches w))) as [Hin|Hout].
    + reflexivity.
    + apply lookup_cache_none in Hout. congruence.
    + apply lookup_cache_none in Hl. contradiction.
    + now rewrite map_app.
Qed.

Lemma install_keeps_names_unique_witness :
  storage_wf
    (caches (snd (run (install_listener Samples.install_ev) Samples.two_caches))) /\
  map fst (caches (snd (run (install_listener Samples.install_ev)
                          Samples.two_caches)))
  = if in_dec string_dec cache_name (map fst (caches Samples.two_caches))
    then map fst (caches Samples.two_caches)
    else map fst (caches Samples.two_caches) ++ [cache_name].
Proof.
  apply (install_keeps_names_unique Samples.two_caches Samples.install_ev).
  repeat constructor; simpl; intuition discriminate.
Defined.

(** X3: a failed install changes the answer to no request: whatever the
    network does later, the fetch listener settles on the storage the
    failed install left exactly as on the storage before it. *)
Theorem failed_install_changes_no_answer w event reason fetch_event net log :
  fst (run (install_listener event) w) = Rejected reason ->
  fst (run (fetch_listener fetch_event)
         (later (snd (run (install_listener event) w)) net log))
  = fst (run (fetch_listener fetch_event) (later w net log)).
Proof.
  rewrite run_install_batch. destruct (preload_batch w); [discriminate|].
  intros _. rewrite !fetch_outcome. cbn [snd later caches network].
  now rewrite storage_match_open.
Qed.

Lemma failed_install_changes_no_answer_witness :
  fst (run (fetch_listener (Samples.ev "/"))
         (later (snd (run (install_listener Samples.install_ev)
                        (mkWorld [] Samples.offline [])))
            Samples.online []))
  = fst (run (fetch_listener (Samples.ev "/"))
           (later (mkWorld [] Samples.offline []) Samples.online [])).
Proof.
  apply (failed_install_changes_no_answer (mkWorld [] Samples.offline [])
           Samples.install_ev type_error (Samples.ev "/") Samples.online []).
  reflexivity.
Defined.

(** X4: an install, successful or not, changes the answer only for the preload
    URLs: a request for any other URL is answered after the install as it
    was before. *)
Theorem install_changes_only_preload_answers w event fetch_event net log :
  ~ In (url (request fetch_event)) preload_urls ->
  fst (run (fetch_listener fetch_event)
         (later (snd (run (install_listener event) w)) net log))
  = fst (run (fetch_listener fetch_event) (later w net log)).
Proof.
  intros Hurl. rewrite !fetch_outcome. cbn [later caches network].
  now rewrite install_storage_match.
Qed.

Lemma install_changes_only_preload_answers_witness :
  fst (run (fetch_listener (Samples.ev "/static/app.js"))
         (later (snd (run (install_listener Samples.install_ev) Samples.leftover))
            Samples.offline []))
  = fst (run (fetch_listener (Samples.ev "/static/app.js"))
           (later Samples.leftover Samples.offline [])).
Proof.
  apply (install_changes_only_preload_answers Samples.leftover
           Samples.install_ev (Samples.ev "/static/app.js") Samples.offline []).
  simpl. intuition discriminate.
Defined.

(** X5: a request whose method is not GET is never answered from a cache: the
    fetch listener passes it to the network, once, whatever is stored under
    its URL. *)
Theorem non_get_bypasses_cache w event :
  method (request event) <> "GET" ->
  run (fetch_listener event) w =
    (network w (request event), log_requests [request event] w).
Proof.
  intros Hm. rewrite run_fetch_listener.
  rewrite storage_match_all_none; [reflexivity|].
  intros name c _. now apply cache_match_not_get.
Qed.

Lemma non_get_bypasses_cache_witness :
  run (fetch_listener (mkFetchEvent (mkRequest "POST" "/"))) Samples.installed
  = (network Samples.installed (mkRequest "POST" "/"),
     log_requests [mkRequest "POST" "/"] Samples.installed).
Proof.
  apply (non_get_bypasses_cache Samples.installed
           (mkFetchEvent (mkRequest "POST" "/"))).
  discriminate.
Defined.

(** X6: the fetch listener's promise rejects in one situation only: no stored
    entry matches the request and the network fetch rejects; the reason is
    then the network's.  In particular a response with an error status is
    passed on as a fulfilment. *)
Theorem fetch_rejects_only_on_miss_and_network_failure w event reason :
  fst (run (fetch_listener event) w) = Rejected reason <->
  (forall resp, ~ stored (request event) resp (caches w)) /\
  network w (request event) = Rejected reason.
Proof.
  rewrite fetch_outcome.
  destruct (storage_match (request event) (caches w)) as [r|] eqn:Hm.
  - split; [discriminate|]. intros [Hno _]. exfalso.
    exact (Hno r (storage_match_some _ _ _ Hm)).
  - split; [|tauto]. intros Hnet. split; [|exact Hnet].
    intros resp. now apply storage_match_none.
Qed.

Lemma install_partition_lookup w event :
  lookup_cache cache_name (caches (snd (run (install_listener event) w)))
  = Some (partition (snd (run (install_listener event) w))).
Proof.
  unfold partition. rewrite run_install_batch.
  destruct (preload_batch w); cbn [snd caches];
    now rewrite ?lookup_cache_update, lookup_cache_open.
Qed.

(** X7: once an install has succeeded, a GET request for a preload URL is
    always answered from the cache storage, without any network call, and
    whatever the network has become since (down, redeployed): the fetch
    listener fulfils with the response the storage lookup finds, a
    response stored under an entry the request matches, and leaves the
    world as it is. *)
Theorem preloaded_urls_served_without_network w event u net log :
  fst (run (install_listener event) w) = Fulfilled tt ->
  In u preload_urls ->
  let w' := later (snd (run (install_listener event) w)) net log in
  exists r, run (fetch_listener (mkFetchEvent (get_request u))) w'
            = (Fulfilled r, w') /\
            storage_match (get_request u) (caches w') = Some r /\
            stored (get_request u) r (caches w').
Proof.
  intros Hrun Hin w'.
  destruct (Install.install_stores_fetched w event u Hrun Hin) as (r & _ & Hm).
  destruct (storage_match_of_cache _ _ _ _ _
              (install_partition_lookup w event) Hm) as [r' Hr'].
  assert (storage_match (get_request u) (caches w') = Some r') as Hw'.
  { unfold w'. cbn [later caches]. exact Hr'. }
  exists r'. split; [|split; [exact Hw' | now apply storage_match_some]].
  rewrite run_fetch_listener. cbn [request]. now rewrite Hw'.
Qed.

Lemma preloaded_urls_served_without_network_witness :
  let w' := later (snd (run (install_listener Samples.install_ev) Samples.fresh))
              Samples.offline [] in
  exists r, run (fetch_listener (mkFetchEvent (get_request "/static/style.css"))) w'
            = (Fulfilled r, w') /\
            storage_match (get_request "/static/style.css") (caches w') = Some r /\
            stored (get_request "/static/style.css") r (caches w').
Proof.
  apply (preloaded_urls_served_without_network Samples.fresh Samples.install_ev
           "/static/style.css" Samples.offline []).
  - reflexivity.
  - simpl. auto.
Defined.

(** X8: when no other cache of the origin holds a match for a preload URL, the
    response served for it after a successful install is the one the
    network gave during that install, also when the network would by now
    answer differently: the entry is never refreshed by a fetch. *)
Theorem preloaded_response_is_install_time w event u net log :
  storage_wf (caches w) ->
  (forall name c, In (name, c) (caches w) -> name <> cache_name ->
                  cache_match (get_request u) c = None) ->
  fst (run (install_listener event) w) = Fulfilled tt ->
  In u preload_urls ->
  let w' := later (snd (run (install_listener event) w)) net log in
  exists r, network w (get_request u) = Fulfilled r /\
            run (fetch_listener (mkFetchEvent (get_request u))) w'
            = (Fulfilled r, w').
Proof.
  intros Hwf Hothers Hrun Hin w'.
  destruct (Install.install_stores_fetched w event u Hrun Hin) as (r & Hnet & Hm).
  exists r. split; [exact Hnet|].
  rewrite run_fetch_listener. cbn [request]. unfold w' at 1. cbn [later caches].
  destruct (install_fulfilled_batch w event Hrun) as (es & Hb & Hcs).
  rewrite (storage_match_alone cache_name).
  - rewrite install_partition_lookup, Hm. reflexivity.
  - unfold storage_wf. rewrite Hcs, names_update. now apply open_storage_wf.
  - rewrite Hcs. intros n c Hc Hne. apply (Hothers n c); [|exact Hne].
    eapply in_open_other; [|exact Hne]. eapply in_update_other; eassumption.
Qed.

Lemma preloaded_response_is_install_time_witness :
  let w' := later (snd (run (install_listener Samples.install_ev) Samples.leftover))
              Samples.redeployed [] in
  exists r, network Samples.leftover (get_request "/") = Fulfilled r /\
            run (fetch_listener (mkFetchEvent (get_request "/"))) w'
            = (Fulfilled r, w').
Proof.
  apply (preloaded_response_is_install_time Samples.leftover Samples.install_ev
           "/" Samples.redeployed []).
  - repeat constructor; simpl; tauto.
  - simpl. intros name c [Heq|[]] Hne. injection Heq as <- <-. now elim Hne.
  - reflexivity.
  - simpl. auto.
Defined.

End InstallThenFetch.

(** ** The exact effect of a batch on a cache *)

Module Batch.
Import Host Js Sw Notions Facts StorageFacts.

Lemma filter_true {A : Type} (f : A -> bool) (l : list A) :
  (forall x, In x l -> f x = true) -> filter f l = l.
Proof.
  induction l as [|x l IH]; simpl; intros H; [reflexivity|].
  rewrite (H x (or_introl eq_refl)). f_equal. apply IH. intros; apply H; auto.
Qed.

Lemma filter_false {A : Type} (f : A -> bool) (l : list A) :
  (forall x, In x l -> f x = false) -> filter f l = [].
Proof.
  induction l as [|x l IH]; simpl; intros H; [reflexivity|].
  rewrite (H x (or_introl eq_refl)). apply IH. intros; apply H; auto.
Qed.

Lemma filter_twice {A : Type} (f g : A -> bool) (l : list A) :
  filter f (filter g l) = filter (fun x => g x && f x) l.
Proof.
  induction l as [|x l IH]; simpl; [reflexivity|].
  destruct (g x); simpl; [destruct (f x)|]; now rewrite IH.
Qed.

(** Putting a batch with distinct URLs: the old entries no request of the
    batch matches stay, in their order, and the batch follows. *)
Lemma cache_put_all_contents (es c : Cache) :
  NoDup (entry_urls es) ->
  cache_put_all es c = filter (survives es) c ++ es.
Proof.
  revert c. induction es as [|e es IH]; intros c Hnd.
  - simpl. rewrite app_nil_r. symmetry. now apply filter_true.
  - change (cache_put_all (e :: es) c) with (cache_put_all es (cache_put e c)).
    simpl in Hnd. inversion Hnd as [|? ? Hnew Hnd']; subst.
    rewrite IH by exact Hnd'. unfold cache_put.
    rewrite filter_app, filter_twice, <- app_assoc. f_equal.
    + apply filter_ext. intros old. unfold survives. simpl.
      now rewrite negb_orb.
    + simpl. replace (survives es e) with true; [reflexivity|].
      symmetry. unfold survives. apply negb_true_iff.
      destruct (existsb _ es) eqn:Hex; [|reflexivity].
      apply existsb_exists in Hex. destruct Hex as (e' & He' & Hm).
      unfold request_matches in Hm. apply andb_true_iff in Hm.
      destruct Hm as [_ Hu]. apply String.eqb_eq in Hu.
      exfalso. apply Hnew. rewrite <- Hu.
      now apply (in_map (fun e => url (fst e))).
Qed.

Lemma batch_member_dropped (es : Cache) e :
  (forall e', In e' es -> method (fst e') = "GET") ->
  In e es -> survives es e = false.
Proof.
  intros Hget He. unfold survives. apply negb_false_iff.
  apply existsb_exists. exists e. split; [exact He|].
  unfold request_matches. rewrite (Hget e He), !String.eqb_refl. reflexivity.
Qed.

Lemma cache_put_all_twice (es c : Cache) :
  NoDup (entry_urls es) ->
  (forall e, In e es -> method (fst e) = "GET") ->
  cache_put_all es (cache_put_all es c) = cache_put_all es c.
Proof.
  intros Hnd Hget. rewrite !cache_put_all_contents by exact Hnd.
  rewrite filter_app, filter_twice. f_equal.
  rewrite (filter_false (survives es) es);
    [|intros x Hx; now apply batch_member_dropped].
  rewrite app_nil_r. apply filter_ext. intros old.
  now destruct (survives es old).
Qed.

Lemma survives_preload w es old :
  preload_batch w = Some es -> survives es old = negb (is_preload old).
Proof.
  intros Hb. unfold survives, is_preload. f_equal.
  apply Bool.eq_iff_eq_true. rewrite !existsb_exists. split.
  - intros (e & He & Hm). unfold request_matches in Hm.
    apply andb_true_iff in Hm. destruct Hm as [_ Hu].
    apply String.eqb_eq in Hu. exists (url (fst old)). split.
    + rewrite <- (preload_batch_urls w es Hb), <- Hu.
      now apply (in_map (fun e => url (fst e))).
    + apply String.eqb_refl.
  - intros (u & Hu & Heq). apply String.eqb_eq in Heq. subst u.
    rewrite <- (preload_batch_urls w es Hb) in Hu.
    apply in_map_iff in Hu. destruct Hu as (e & Heq & He).
    exists e. split; [exact He|]. unfold request_matches.
    rewrite (preload_batch_get w es e Hb He), Heq, !String.eqb_refl.
    reflexivity.
Qed.

End Batch.

(** ** The partition after an install, and installing twice *)

Module InstallContents.
Import Host Js Sw Notions Facts StorageFacts Batch.

Lemma install_partition_batch w event es :
  preload_batch w = Some es ->
  partition (snd (run (install_listener event) w))
  = filter (fun old => negb (is_preload old)) (partition w) ++ es.
Proof.
  intros Hb. rewrite run_install_batch, Hb. cbn [snd].
  rewrite Install.partition_put_all, cache_put_all_contents.
  - f_equal. apply filter_ext. intros old. now apply (survives_preload w).
  - rewrite (preload_batch_urls w es Hb). exact Install.preload_urls_distinct.
Qed.

(** X9: the exact contents of the partition after a successful install: the
    entries it held under other URLs, in their order, followed by one fresh
    entry for [/] and one for [/static/style.css], in that order, each with
    the response the network gave.  Older entries under the two URLs,
    duplicates included, are gone. *)
Theorem install_partition_contents w event :
  fst (run (install_listener event) w) = Fulfilled tt ->
  exists r1 r2,
    network w (get_request "/") = Fulfilled r1 /\
    network w (get_request "/static/style.css") = Fulfilled r2 /\
    partition (snd (run (install_listener event) w))
    = filter (fun old => negb (is_preload old)) (partition w)
      ++ [(get_request "/", r1); (get_request "/static/style.css", r2)].
Proof.
  intros Hrun.
  destruct (InstallThenFetch.install_fulfilled_batch w event Hrun)
    as (es & Hb & _).
  rewrite (install_partition_batch w event es Hb).
  pose proof Hb as Hc. apply collect_some in Hc.
  destruct Hc as (Hfst & Hval & _).
  destruct es as [|[q1 r1] [|[q2 r2] [|e es]]]; try discriminate.
  simpl in Hfst. injection Hfst as -> ->.
  exists r1, r2. repeat split.
  - apply (Hval _ r1). now left.
  - apply (Hval _ r2). right. now left.
Qed.

Lemma install_partition_contents_witness :
  exists r1 r2,
    network Samples.leftover (get_request "/") = Fulfilled r1 /\
    network Samples.leftover (get_request "/static/style.css") = Fulfilled r2 /\
    partition (snd (run (install_listener Samples.install_ev) Samples.leftover))
    = filter (fun old => negb (is_preload old)) (partition Samples.leftover)
      ++ [(get_request "/", r1); (get_request "/static/style.css", r2)].
Proof.
  apply (install_partition_contents Samples.leftover Samples.install_ev).
  reflexivity.
Defined.

(** X10: installing twice against a network that answers the same is installing
    once: the second run settles as the first did and leaves the cache
    storage the first run left (the second run fetches both URLs again all
    the same). *)
Theorem reinstall_same_network_changes_nothing w event event' :
  fst (run (install_listener event')
         (snd (run (install_listener event) w)))
  = fst (run (install_listener event) w) /\
  caches (snd (run (install_listener event')
                 (snd (run (install_listener event) w))))
  = caches (snd (run (install_listener event) w)) /\
  netlog (snd (run (install_listener event')
                 (snd (run (install_listener event) w))))
  = netlog w ++ map get_request preload_urls ++ map get_request preload_urls.
Proof.
  rewrite (run_install_batch w event).
  destruct (preload_batch w) as [es|] eqn:Hb; cbn [fst snd];
    rewrite run_install_batch; unfold preload_batch in *; cbn [network];
    rewrite Hb; cbn [fst snd caches netlog];
    (split; [reflexivity | split; [|now rewrite <- app_assoc]]).
  - rewrite open_after_update. apply update_cache_twice. intros c.
    apply cache_put_all_twice.
    + rewrite (preload_batch_urls w es Hb). exact Install.preload_urls_distinct.
    + intros e. now apply (preload_batch_get w es e).
  - apply open_storage_twice.
Qed.

End InstallContents.

(** ** Promise chains and the network log *)

Module Chains.
Import Host Js Sw Notions Facts Interleaving.

(** X11: [p.then(f)] runs [p] first; when [p] fulfils, [f] is called with the
    value and the promise it returns is run from the world [p] left; when
    [p] rejects, [f] is not called and the rejection is the outcome. *)
Theorem run_then {A B : Type} (p : Promise A) (f : A -> Promise B) w :
  run (then_ p f) w =
  match run p w with
  | (Fulfilled a, w') => run (f a) w'
  | (Rejected e, w') => (Rejected e, w')
  end.
Proof.
  revert w. induction p as [s|X op k IH]; intros w; simpl.
  - now destruct s.
  - destruct (perform op w) as [s w']. apply IH.
Qed.

Lemma perform_log {X : Type} (op : HostOp X) w :
  netlog (snd (perform op w)) = netlog w ++ op_log op.
Proof.
  destruct op; simpl.
  - now rewrite app_nil_r.
  - unfold addAll. destruct (collect _); [destruct (has_duplicate urls)|];
      reflexivity.
  - now rewrite app_nil_r.
  - reflexivity.
Qed.

Lemma step_log_netlog {A : Type} (p : Promise A) w :
  netlog (snd (step p w)) = netlog w ++ step_log p.
Proof.
  destruct p as [s|X op k]; simpl; [now rewrite app_nil_r|].
  rewrite <- perform_log. now destruct (perform op w).
Qed.

Lemma run_log_step {A : Type} (p : Promise A) w :
  run_log p w = step_log p ++ run_log (fst (step p w)) (snd (step p w)).
Proof.
  destruct p as [s|X op k]; simpl; [reflexivity|].
  now destruct (perform op w).
Qed.

Lemma run_log_view {A : Type} (p : Promise A) w1 w2 :
  reads_only p -> same_view w1 w2 -> run_log p w1 = run_log p w2.
Proof.
  intros Hro. revert w1 w2.
  induction Hro as [s|req k Hk IH|req k Hk IH]; intros w1 w2 [Hc Hn]; simpl.
  - reflexivity.
  - rewrite Hc. apply IH. now split.
  - rewrite Hn. f_equal. apply IH. now split.
Qed.

Lemma step_at_log {A : Type} i (ps : list (Promise A)) w w0 :
  Forall reads_only ps -> same_view w w0 ->
  Permutation (netlog (snd (step_at i ps w)) ++ pool_log (fst (step_at i ps w)) w0)
              (netlog w ++ pool_log ps w0).
Proof.
  revert i. induction ps as [|p ps IH]; intros i Hall Hv; simpl.
  - apply Permutation_refl.
  - inversion Hall as [|? ? Hp Hps]; subst. destruct i as [|i].
    + pose proof (step_log_netlog p w) as Hlog.
      pose proof (run_log_step p w) as Hsplit.
      destruct (step_reads_only p w w Hp (same_view_refl w)) as (_ & Hv' & Hro').
      destruct (step p w) as [p' w']. cbn [fst snd] in *.
      unfold pool_log. cbn [flat_map].
      rewrite (run_log_view p w0 w Hp (same_view_sym _ _ Hv)), Hsplit, Hlog.
      rewrite (run_log_view p' w' w0 Hro' (same_view_trans _ _ _ Hv' Hv)).
      rewrite <- !app_assoc. apply Permutation_refl.
    + specialize (IH i Hps Hv).
      destruct (step_at i ps w) as [ps' w']. cbn [fst snd] in *.
      unfold pool_log in *. cbn [flat_map].
      eapply Permutation_trans; [apply Permutation_app_swap_app|].
      eapply Permutation_trans; [|apply Permutation_app_swap_app].
      now apply Permutation_app_head.
Qed.

(** Under any schedule, what has been logged plus what the promises still
    have to log is what the promises have to log from the start. *)
Lemma run_schedule_log {A : Type} sched :
  forall (ps : list (Promise A)) w w0,
  Forall reads_only ps -> same_view w w0 ->
  Permutation
    (netlog (snd (run_schedule sched ps w))
       ++ pool_log (fst (run_schedule sched ps w)) w0)
    (netlog w ++ pool_log ps w0).
Proof.
  induction sched as [|j rest IH]; intros ps w w0 Hall Hv.
  - apply Permutation_refl.
  - cbn [run_schedule].
    pose proof (step_at_log j ps w w0 Hall Hv) as Hstep.
    destruct (step_at_reads_only j ps w Hall) as (Hv1 & Hall1 & _).
    destruct (step_at j ps w) as [ps1 w1]. cbn [fst snd] in *.
    eapply Permutation_trans; [|exact Hstep].
    apply IH; [exact Hall1 | eapply same_view_trans; eassumption].
Qed.

Lemma flat_map_all_nil {A B : Type} (f : A -> list B) (l : list A) :
  (forall x, In x l -> f x = []) -> flat_map f l = [].
Proof.
  induction l as [|x l IH]; simpl; intros H; [reflexivity|].
  rewrite (H x (or_introl eq_refl)). apply IH. intros; apply H; auto.
Qed.

Lemma run_log_fetch_listener w event :
  run_log (fetch_listener event) w = miss_log w event.
Proof.
  unfold fetch_listener, respondWith, caches_match, host, miss_log. simpl.
  now destruct (storage_match (request event) (caches w)).
Qed.

(** X12: fetch events handled interleaved in any order, every handler having
    been given its two host calls: the network has been called once for
    each event that missed the cache, with that event's request, and not at
    all for the events that hit; the log is the old log and these calls, in
    some order. *)
Theorem interleaved_fetches_call_network_once_per_miss w events sched :
  (forall i, i < List.length events -> 2 <= count_occ Nat.eq_dec sched i) ->
  Permutation
    (netlog (snd (run_schedule sched (map fetch_listener events) w)))
    (netlog w ++ flat_map (miss_log w) events).
Proof.
  intros Hturns.
  assert (Forall reads_only (map fetch_listener events)) as Hall.
  { apply Forall_forall. intros p Hp. apply in_map_iff in Hp.
    destruct Hp as (e & <- & _). apply fetch_listener_reads_only. }
  pose proof (run_schedule_log sched _ w w Hall (same_view_refl w)) as Hperm.
  destruct (run_schedule_reads_only sched _ w w Hall (same_view_refl w))
    as [_ Hnth].
  assert (pool_log (fst (run_schedule sched (map fetch_listener events) w)) w
          = []) as Hdone.
  { unfold pool_log. apply flat_map_all_nil.
    intros p Hp. apply In_nth_error in Hp. destruct Hp as [i Hi].
    rewrite Hnth, nth_error_map in Hi.
    destruct (nth_error events i) as [ev|] eqn:Hev; [|discriminate].
    cbn [option_map] in Hi. injection Hi as <-.
    rewrite fetch_listener_settles; [reflexivity|].
    apply Hturns. apply nth_error_Some. congruence. }
  rewrite Hdone, app_nil_r in Hperm.
  eapply Permutation_trans; [exact Hperm|].
  apply Permutation_app_head. unfold pool_log.
  rewrite flat_map_concat_map, map_map, <- flat_map_concat_map.
  erewrite flat_map_ext; [apply Permutation_refl|].
  intros ev. apply run_log_fetch_listener.
Qed.

Lemma interleaved_fetches_call_network_once_per_miss_witness :
  Permutation
    (netlog (snd (run_schedule [1; 0; 2; 1; 0; 2]
                    (map fetch_listener
                       [Samples.ev "/"; Samples.ev "/missing"; Samples.ev "/x"])
                    Samples.installed)))
    (netlog Samples.installed
       ++ flat_map (miss_log Samples.installed)
            [Samples.ev "/"; Samples.ev "/missing"; Samples.ev "/x"]).
Proof.
  apply (interleaved_fetches_call_network_once_per_miss Samples.installed
           [Samples.ev "/"; Samples.ev "/missing"; Samples.ev "/x"]
           [1; 0; 2; 1; 0; 2]).
  intros i Hi. destruct i as [|[|[|i]]]; simpl in *; lia.
Defined.

End Chains.

(** ** The partition after an install and after a re-install *)

Module PartitionAfterInstall.
Import Host Js Sw Notions Facts StorageFacts Batch.

Lemma preload_batch_entries w es :
  preload_batch w = Some es ->
  exists r1 r2,
    network w (get_request "/") = Fulfilled r1 /\
    network w (get_request "/static/style.css") = Fulfilled r2 /\
    es = [(get_request "/", r1); (get_request "/static/style.css", r2)].
Proof.
  intros Hb. apply collect_some in Hb. destruct Hb as (Hfst & Hval & _).
  destruct es as [|[q1 r1] [|[q2 r2] [|e es]]]; try discriminate.
  simpl in Hfst. injection Hfst as -> ->.
  exists r1, r2. repeat split.
  - apply (Hval _ r1). now left.
  - apply (Hval _ r2). right. now left.
Qed.

Lemma is_preload_true e :
  is_preload e = true <-> In (url (fst e)) preload_urls.
Proof.
  unfold is_preload. rewrite existsb_exists. split.
  - intros (u & Hu & Heq). apply String.eqb_eq in Heq. now rewrite Heq.
  - intros Hin. exists (url (fst e)). split; [exact Hin | apply String.eqb_refl].
Qed.

Lemma is_preload_false e :
  is_preload e = false <-> ~ In (url (fst e)) preload_urls.
Proof.
  rewrite <- is_preload_true. now destruct (is_preload e).
Qed.

Lemma NoDup_map_In_inj {A B : Type} (f : A -> B) (l : list A) x y :
  NoDup (map f l) -> In x l -> In y l -> f x = f y -> x = y.
Proof.
  induction l as [|a l IH]; simpl; intros Hnd Hx Hy Hf; [contradiction|].
  inversion Hnd as [|? ? Hnew Hnd']; subst.
  destruct Hx as [->|Hx], Hy as [->|Hy].
  - reflexivity.
  - exfalso. apply Hnew. rewrite Hf. now apply in_map.
  - exfalso. apply Hnew. rewrite <- Hf. now apply in_map.
  - now apply IH.
Qed.

Lemma entry_urls_filter_NoDup (g : Request * Response -> bool) (c : Cache) :
  NoDup (entry_urls c) -> NoDup (entry_urls (filter g c)).
Proof.
  unfold entry_urls. induction c as [|e c IH]; simpl; intros Hnd;
    [constructor|].
  inversion Hnd as [|? ? Hnew Hnd']; subst.
  destruct (g e); simpl; [|now apply IH].
  constructor; [|now apply IH].
  intros Hin. apply Hnew. apply in_map_iff in Hin.
  destruct Hin as (e' & Heq & He'). apply filter_In in He'.
  rewrite <- Heq. now apply (in_map (fun e => url (fst e))).
Qed.

(** One entry per URL stays one entry per URL when a preload batch is put. *)
Lemma put_batch_NoDup w es (c : Cache) :
  preload_batch w = Some es ->
  NoDup (entry_urls c) ->
  NoDup (entry_urls (filter (fun old => negb (is_preload old)) c ++ es)).
Proof.
  intros Hb Hnd. unfold entry_urls. rewrite map_app.
  fold (entry_urls es). rewrite (preload_batch_urls w es Hb).
  apply NoDup_app.
  - now apply (entry_urls_filter_NoDup _ c).
  - exact Install.preload_urls_distinct.
  - intros u Hu Hpre. apply in_map_iff in Hu. destruct Hu as (e & <- & He).
    apply filter_In in He. destruct He as [_ He].
    apply negb_true_iff, is_preload_false in He. contradiction.
Qed.

(** The partition after the install listener has run: the batch has been
    put, or, when a preload fetch failed, nothing has changed. *)
Lemma partition_after_install w event :
  (exists es, preload_batch w = Some es /\
     fst (run (install_listener event) w) = Fulfilled tt /\
     partition (snd (run (install_listener event) w))
     = filter (fun old => negb (is_preload old)) (partition w) ++ es /\
     partition (snd (run (install_listener event) w))
     = cache_put_all es (partition w)) \/
  (fst (run (install_listener event) w) = Rejected type_error /\
   partition (snd (run (install_listener event) w)) = partition w /\
   caches (snd (run (install_listener event) w))
   = open_storage cache_name (caches w)).
Proof.
  destruct (preload_batch w) as [es|] eqn:Hb.
  - left. exists es. split; [reflexivity|]. split; [|split].
    + now rewrite run_install_batch, Hb.
    + now apply InstallContents.install_partition_batch.
    + rewrite run_install_batch, Hb. cbn [snd].
      apply Install.partition_put_all.
  - right. rewrite run_install_batch, Hb. cbn [fst snd caches].
    now rewrite Install.partition_open.
Qed.

Lemma open_existing_partition w u :
  In u (entry_urls (partition w)) ->
  open_storage cache_name (caches w) = caches w.
Proof.
  unfold partition, open_storage.
  destruct (lookup_cache cache_name (caches w)); [reflexivity | contradiction].
Qed.

(** C3, amended: after a successful install the storage has the
    [expense-cache-v1] partition, and the partition holds exactly this:
    the entries it held before under URLs other than the two preload URLs,
    unchanged (same request, same response) and in their old order,
    followed by one entry for [/] and one for [/static/style.css], each
    with the response the network has just given.  So a lookup of any
    other URL in the partition answers as before, a lookup of a preload URL
    answers with the fresh response, the URLs it holds entries for are the
    two preload URLs together with the URLs it held before, and it holds
    exactly the two preload URLs when it held no other URL before, in
    particular when it was absent or empty. *)
Theorem install_populates_partition w event :
  fst (run (install_listener event) w) = Fulfilled tt ->
  let w' := snd (run (install_listener event) w) in
  lookup_cache cache_name (caches w') = Some (partition w') /\
  (exists r1 r2,
     network w (get_request "/") = Fulfilled r1 /\
     network w (get_request "/static/style.css") = Fulfilled r2 /\
     partition w'
     = filter (fun old => negb (is_preload old)) (partition w)
       ++ [(get_request "/", r1); (get_request "/static/style.css", r2)]) /\
  (forall e, In e (partition w) -> ~ In (url (fst e)) preload_urls ->
             In e (partition w')) /\
  (forall req, ~ In (url req) preload_urls ->
               cache_match req (partition w') = cache_match req (partition w)) /\
  (forall u, In u (entry_urls (partition w')) <->
             In u preload_urls \/ In u (entry_urls (partition w))) /\
  (forall u, In u preload_urls ->
             exists r, network w (get_request u) = Fulfilled r /\
                       cache_match (get_request u) (partition w') = Some r) /\
  ((forall u, In u (entry_urls (partition w)) -> In u preload_urls) ->
   forall u, In u (entry_urls (partition w')) <-> In u preload_urls) /\
  (partition w = [] -> entry_urls (partition w') = preload_urls).
Proof.
  intros Hrun w'.
  pose proof (Install.install_stores_fetched w event) as Hvals.
  specialize (fun u => Hvals u Hrun). fold w' in Hvals.
  pose proof (InstallThenFetch.install_partition_lookup w event) as Hlook.
  fold w' in Hlook.
  destruct (partition_after_install w event)
    as [(es & Hb & _ & Hpart & Hput)|(Hrej & _)];
    [|rewrite Hrun in Hrej; discriminate].
  fold w' in Hpart, Hput.
  pose proof (preload_batch_urls w es Hb) as Hurls.
  assert (forall u, In u (entry_urls (partition w')) <->
                    In u preload_urls \/ In u (entry_urls (partition w)))
    as Hset.
  { intros u. now rewrite Hput, entry_urls_put_all, Hurls. }
  split; [exact Hlook|]. split; [|split; [|split; [|split; [|split; [|split]]]]].
  - destruct (preload_batch_entries w es Hb) as (r1 & r2 & H1 & H2 & Hes).
    exists r1, r2. rewrite Hpart, Hes. auto.
  - intros e He Hout. rewrite Hpart. apply in_or_app. left.
    apply filter_In. split; [exact He|].
    apply negb_true_iff. now apply is_preload_false.
  - intros req Hout. rewrite Hput. apply cache_match_put_all_other.
    now rewrite Hurls.
  - exact Hset.
  - exact Hvals.
  - intros Honly u. rewrite Hset. split; [intros [Hu|Hu]; auto | auto].
  - intros Hempty. rewrite Hpart, Hempty. exact Hurls.
Qed.

Lemma install_populates_partition_witness :
  (let w := Samples.leftover in
   let w' := snd (run (install_listener Samples.install_ev) w) in
   lookup_cache cache_name (caches w') = Some (partition w') /\
   (exists r1 r2,
      network w (get_request "/") = Fulfilled r1 /\
      network w (get_request "/static/style.css") = Fulfilled r2 /\
      partition w'
      = filter (fun old => negb (is_preload old)) (partition w)
        ++ [(get_request "/", r1); (get_request "/static/style.css", r2)]) /\
   (forall e, In e (partition w) -> ~ In (url (fst e)) preload_urls ->
              In e (partition w')) /\
   (forall req, ~ In (url req) preload_urls ->
                cache_match req (partition w') = cache_match req (partition w)) /\
   (forall u, In u (entry_urls (partition w')) <->
              In u preload_urls \/ In u (entry_urls (partition w))) /\
   (forall u, In u preload_urls ->
              exists r, network w (get_request u) = Fulfilled r /\
                        cache_match (get_request u) (partition w') = Some r) /\
   ((forall u, In u (entry_urls (partition w)) -> In u preload_urls) ->
    forall u, In u (entry_urls (partition w')) <-> In u preload_urls) /\
   (partition w = [] -> entry_urls (partition w') = preload_urls)) /\
  In (get_request "/static/app.js", Samples.script)
    (partition (snd (run (install_listener Samples.install_ev) Samples.leftover))) /\
  entry_urls
    (partition (snd (run (install_listener Samples.install_ev) Samples.fresh)))
  = preload_urls.
Proof.
  split; [|split].
  - apply (install_populates_partition Samples.leftover Samples.install_ev).
    reflexivity.
  - destruct (install_populates_partition Samples.leftover Samples.install_ev
                eq_refl) as (_ & _ & Hkept & _).
    apply Hkept; simpl; [auto | intuition discriminate].
  - destruct (install_populates_partition Samples.fresh Samples.install_ev
                eq_refl) as (_ & _ & _ & _ & _ & _ & _ & Hempty).
    apply Hempty. reflexivity.
Defined.

(** C8, amended: re-running the install listener when the partition
    already holds entries for the two preload URLs does not error provided
    both preload fetches succeed again, and leaves the set of entries of
    the partition unchanged: when a preload fetch fails the whole cache
    storage is left exactly as it was; when the run succeeds the partition
    keeps its entries under other URLs as they are and holds one entry per
    preload URL with the response just fetched, so the URLs it holds
    entries for are the same, each as often as before in a partition with
    one entry per URL, and the entries themselves are the same, request
    and response, when the network answers with the responses already
    stored. *)
Theorem reinstall_keeps_entry_set w event :
  (forall u, In u preload_urls -> In u (entry_urls (partition w))) ->
  let w' := snd (run (install_listener event) w) in
  (preload_ok w -> fst (run (install_listener event) w) = Fulfilled tt) /\
  (fst (run (install_listener event) w) <> Fulfilled tt -> caches w' = caches w) /\
  (fst (run (install_listener event) w) = Fulfilled tt ->
   exists r1 r2,
     network w (get_request "/") = Fulfilled r1 /\
     network w (get_request "/static/style.css") = Fulfilled r2 /\
     partition w'
     = filter (fun old => negb (is_preload old)) (partition w)
       ++ [(get_request "/", r1); (get_request "/static/style.css", r2)]) /\
  (forall u, In u (entry_urls (partition w')) <-> In u (entry_urls (partition w))) /\
  (NoDup (entry_urls (partition w)) ->
   Permutation (entry_urls (partition w')) (entry_urls (partition w))) /\
  (NoDup (entry_urls (partition w)) ->
   (forall u, In u preload_urls ->
      exists r, network w (get_request u) = Fulfilled r /\
                In (get_request u, r) (partition w)) ->
   Permutation (partition w') (partition w)).
Proof.
  intros Hheld w'.
  destruct (partition_after_install w event)
    as [(es & Hb & Hok & Hpart & Hput)|(Hrej & Hpart & Hcs)];
    fold w' in Hpart; try fold w' in Hput; try fold w' in Hcs.
  - pose proof (preload_batch_urls w es Hb) as Hurls.
    assert (forall u, In u (entry_urls (partition w')) <->
                      In u (entry_urls (partition w))) as Hset.
    { intros u. rewrite Hput, entry_urls_put_all, Hurls.
      split; [intros [Hu|Hu]; auto | auto]. }
    assert (NoDup (entry_urls (partition w)) ->
            NoDup (entry_urls (partition w'))) as Hnd'.
    { intros Hnd. rewrite Hpart. now apply (put_batch_NoDup w). }
    split; [intros _; exact Hok|]. split; [intros Hne; now elim Hne|].
    split; [|split; [exact Hset|split]].
    + intros _. destruct (preload_batch_entries w es Hb)
        as (r1 & r2 & H1 & H2 & Hes).
      exists r1, r2. rewrite Hpart, Hes. auto.
    + intros Hnd. apply NoDup_Permutation; [now apply Hnd' | exact Hnd | exact Hset].
    + intros Hnd Hsame.
      destruct (preload_batch_entries w es Hb) as (r1 & r2 & H1 & H2 & Hes).
      assert (forall e, In e es -> In e (partition w)) as Hes_old.
      { intros e He. rewrite Hes in He.
        destruct He as [<-|[<-|[]]].
        - destruct (Hsame "/") as (r & Hr & Hin); [simpl; auto|].
          rewrite H1 in Hr. injection Hr as <-. exact Hin.
        - destruct (Hsame "/static/style.css") as (r & Hr & Hin); [simpl; auto|].
          rewrite H2 in Hr. injection Hr as <-. exact Hin. }
      apply NoDup_Permutation.
      * apply (NoDup_map_inv (fun e => url (fst e))). now apply Hnd'.
      * apply (NoDup_map_inv (fun e => url (fst e))). exact Hnd.
      * intros x. rewrite Hpart, in_app_iff, filter_In. split.
        -- intros [[Hx _]|Hx]; [exact Hx | now apply Hes_old].
        -- intros Hx. destruct (is_preload x) eqn:Hp; [right | left; auto].
           apply is_preload_true in Hp.
           rewrite <- Hurls in Hp. apply in_map_iff in Hp.
           destruct Hp as (e & Heq & He).
           rewrite (NoDup_map_In_inj (fun e => url (fst e)) (partition w) x e);
             auto.
  - split; [|split; [|split; [|split; [|split]]]].
    + intros Hok. exfalso.
      destruct (Install.install_fulfilled w event Hok) as (es & Hrun & _).
      rewrite Hrun in Hrej. discriminate.
    + intros _. rewrite Hcs.
      apply (open_existing_partition w "/"). apply Hheld. simpl. auto.
    + intros Hok. rewrite Hok in Hrej. discriminate.
    + intros u. now rewrite Hpart.
    + intros _. now rewrite Hpart.
    + intros _ _. now rewrite Hpart.
Qed.

Lemma reinstall_keeps_entry_set_witness :
  let w := Samples.installed_with_script in
  let w' := snd (run (install_listener Samples.install_ev) w) in
  fst (run (install_listener Samples.install_ev) w) = Fulfilled tt /\
  (forall u, In u (entry_urls (partition w')) <-> In u (entry_urls (partition w))) /\
  Permutation (entry_urls (partition w')) (entry_urls (partition w)) /\
  Permutation (partition w') (partition w).
Proof.
  assert (NoDup (entry_urls (partition Samples.installed_with_script)))
    as Hnd.
  { repeat constructor; simpl; intuition discriminate. }
  destruct (reinstall_keeps_entry_set Samples.installed_with_script
              Samples.install_ev) as (Hok & _ & _ & Hset & Hurls & Hsame).
  { intros u [<-|[<-|[]]]; simpl; auto. }
  split; [|split; [exact Hset|split]].
  - apply Hok. intros u [<-|[<-|[]]]; reflexivity.
  - apply Hurls. exact Hnd.
  - apply Hsame; [exact Hnd|].
    intros u [<-|[<-|[]]];
      [exists Samples.page | exists Samples.style]; simpl; auto.
Defined.

End PartitionAfterInstall.
